(** * kafka-concepts: a shallow embedding of the three teaching brokers

    The repository holds three successive Python programs:
    - [01_simple_kafka.py]: topics are Python lists of messages;
    - [02_partitions.py]: topics are split into partitions chosen by a SHA-1
      hash of the key;
    - [03_retention.py]: partitions store timestamped records in a dict keyed
      by offset, and [vacuum] deletes the records past their retention time.

    Modelling choices, all of them local to this file:
    - a Python [dict] is an association list in insertion order ([dict_set]
      replaces in place or appends, as CPython does);
    - a Python [str] is represented by the string of its UTF-8 bytes, so that
      [.encode('utf-8')] is the passage to the list of bytes; a [str] that
      cannot be encoded has no representation;
    - [time.time()] reads an oracle [clock : nat -> Z] (the n-th reading of the
      run), readings being integer ticks rather than floating point seconds;
    - [print] appends one structured line to [stdout];
    - exceptions are an outcome of the state monad [M]; the state reached
      before the exception is kept, as in Python. *)

From Stdlib.Strings Require Import String Ascii Byte.
From Stdlib Require Import ZArith List Bool Lia Sorted.
Import ListNotations.
Local Open Scope Z_scope.

(** ** hashlib.sha1 (FIPS 180-4), on lists of bytes *)

Module Sha1.

Definition mask32 (x : Z) : Z := Z.land x 0xFFFFFFFF.

Definition rotl (n x : Z) : Z :=
  mask32 (Z.lor (Z.shiftl x n) (Z.shiftr x (32 - n))).

Definition add32 (x y : Z) : Z := mask32 (x + y).

(** big-endian bytes of a 64-bit length *)
Definition be64 (n : Z) : list Z :=
  map (fun i => Z.land (Z.shiftr n (8 * i)) 0xFF) [7; 6; 5; 4; 3; 2; 1; 0].

Definition pad (msg : list Z) : list Z :=
  let len := Z.of_nat (length msg) in
  msg ++ [0x80] ++ repeat 0 (Z.to_nat ((55 - len) mod 64)) ++ be64 (8 * len).

Fixpoint words (fuel : nat) (bs : list Z) : list Z :=
  match fuel, bs with
  | S fuel', b0 :: b1 :: b2 :: b3 :: rest =>
      (Z.shiftl b0 24 + Z.shiftl b1 16 + Z.shiftl b2 8 + b3) :: words fuel' rest
  | _, _ => []
  end.

Fixpoint blocks (n : nat) (ws : list Z) : list (list Z) :=
  match n with
  | O => []
  | S n' => firstn 16 ws :: blocks n' (skipn 16 ws)
  end.

(** message schedule, most recent word first *)
Fixpoint schedule (n : nat) (rw : list Z) : list Z :=
  match n with
  | O => rw
  | S n' =>
      let w := rotl 1 (Z.lxor (Z.lxor (nth 2 rw 0) (nth 7 rw 0))
                              (Z.lxor (nth 13 rw 0) (nth 15 rw 0))) in
      schedule n' (w :: rw)
  end.

Definition f (t b c d : Z) : Z :=
  if t <? 20 then Z.lor (Z.land b c) (Z.land (Z.lxor b 0xFFFFFFFF) d)
  else if t <? 40 then Z.lxor (Z.lxor b c) d
  else if t <? 60 then Z.lor (Z.lor (Z.land b c) (Z.land b d)) (Z.land c d)
  else Z.lxor (Z.lxor b c) d.

Definition k (t : Z) : Z :=
  if t <? 20 then 0x5A827999
  else if t <? 40 then 0x6ED9EBA1
  else if t <? 60 then 0x8F1BBCDC
  else 0xCA62C1D6.

Definition regs : Type := Z * Z * Z * Z * Z.

Fixpoint rounds (t : Z) (ws : list Z) (r : regs) : regs :=
  match ws with
  | [] => r
  | w :: ws' =>
      let '(a, b, c, d, e) := r in
      let temp := add32 (add32 (add32 (add32 (rotl 5 a) (f t b c d)) e) (k t)) w in
      rounds (t + 1) ws' (temp, a, rotl 30 b, c, d)
  end.

Definition compress (h : regs) (block : list Z) : regs :=
  let ws := rev (schedule 64 (rev block)) in
  let '(h0, h1, h2, h3, h4) := h in
  let '(a, b, c, d, e) := rounds 0 ws h in
  (add32 h0 a, add32 h1 b, add32 h2 c, add32 h3 d, add32 h4 e).

Definition init : regs :=
  (0x67452301, 0xEFCDAB89, 0x98BADCFE, 0x10325476, 0xC3D2E1F0).

(** [int(hashlib.sha1(data).hexdigest(), 16)]: the 160-bit digest read as a
    big-endian natural number. *)
Definition digest_int (data : list byte) : Z :=
  let bs := pad (map (fun b => Z.of_N (Byte.to_N b)) data) in
  let ws := words (length bs) bs in
  let '(h0, h1, h2, h3, h4) :=
    fold_left compress (blocks (length ws / 16) ws) init in
  Z.shiftl h0 128 + Z.shiftl h1 96 + Z.shiftl h2 64 + Z.shiftl h3 32 + h4.

End Sha1.

(** ** Python dicts, in insertion order *)

Class DictKey (K : Type) := {
  key_eqb : K -> K -> bool;
  key_eqb_eq : forall a b, key_eqb a b = true <-> a = b
}.

#[export] Instance Z_DictKey : DictKey Z :=
  {| key_eqb := Z.eqb; key_eqb_eq := Z.eqb_eq |}.

#[export] Instance string_DictKey : DictKey string :=
  {| key_eqb := String.eqb; key_eqb_eq := String.eqb_eq |}.

#[global] Arguments Z_DictKey : simpl never.
#[global] Arguments string_DictKey : simpl never.

Definition dict (K V : Type) : Type := list (K * V).

Section Dict.
Context {K V : Type} `{DictKey K}.

(** [d[k]], [None] standing for the KeyError *)
Fixpoint dict_get (k : K) (d : dict K V) : option V :=
  match d with
  | [] => None
  | (k', v) :: d' => if key_eqb k k' then Some v else dict_get k d'
  end.

(** [d[k] = v]: an existing key keeps its place, a new key goes last *)
Fixpoint dict_set (k : K) (v : V) (d : dict K V) : dict K V :=
  match d with
  | [] => [(k, v)]
  | (k', v') :: d' =>
      if key_eqb k k' then (k', v) :: d' else (k', v') :: dict_set k v d'
  end.

(** [del d[k]], [None] standing for the KeyError *)
Fixpoint dict_del (k : K) (d : dict K V) : option (dict K V) :=
  match d with
  | [] => None
  | (k', v') :: d' =>
      if key_eqb k k' then Some d'
      else option_map (cons (k', v')) (dict_del k d')
  end.

(** [list(d)] *)
Definition dict_keys (d : dict K V) : list K := map fst d.
End Dict.

(** [xs or ys] on lists: an empty list is falsy *)
Definition list_or {A : Type} (xs ys : list A) : list A :=
  match xs with
  | [] => ys
  | _ => xs
  end.

(** [range(n)] *)
Definition range (n : Z) : list Z := map Z.of_nat (seq 0 (Z.to_nat n)).

(** ** Python values handed back to a caller, and the effect monad *)

Inductive value : Type :=
| VNone
| VStr (s : string)
| VInt (z : Z)
| VTuple (a b : value).

Inductive exn : Type := KeyError | IndexError | ZeroDivisionError.

Inductive outcome (A : Type) : Type :=
| Returned (a : A)
| Raised (e : exn).
Arguments Returned {A} a.
Arguments Raised {A} e.

(** A computation over a mutable state [S]: it returns or raises, and leaves
    a state behind in both cases. *)
Definition M (S A : Type) : Type := S -> outcome A * S.

Definition ret {S A : Type} (a : A) : M S A := fun s => (Returned a, s).

Definition bind {S A B : Type} (m : M S A) (f : A -> M S B) : M S B :=
  fun s =>
    match m s with
    | (Returned a, s') => f a s'
    | (Raised e, s') => (Raised e, s')
    end.

Definition raise {S A : Type} (e : exn) : M S A := fun s => (Raised e, s).

Definition gets {S A : Type} (f : S -> A) : M S A := fun s => (Returned (f s), s).

Definition modify {S : Type} (f : S -> S) : M S unit := fun s => (Returned tt, f s).

(** [try: m  except Exception: handler] *)
Definition try_except {S A : Type} (m handler : M S A) : M S A :=
  fun s =>
    match m s with
    | (Returned a, s') => (Returned a, s')
    | (Raised _, s') => handler s'
    end.

(** a lookup that raises [e] when the key is missing *)
Definition getitem {S K V : Type} `{DictKey K} (e : exn) (k : K) (d : dict K V)
  : M S V :=
  match dict_get k d with
  | Some v => ret v
  | None => raise e
  end.

Declare Scope monad_scope.
Delimit Scope monad_scope with monad.
Notation "x <- c ;; k" := (bind c (fun x => k))
  (at level 61, c at next level, right associativity) : monad_scope.
Notation "c ;;; k" := (bind c (fun _ => k))
  (at level 61, right associativity) : monad_scope.
Local Open Scope monad_scope.

(** [key or message] for [key=None] or a [str]: [None] and the empty string
    are falsy *)
Definition key_or (key : option string) (message : string) : string :=
  match key with
  | Some (String c s) => String c s
  | _ => message
  end.

Definition encode_utf8 (s : string) : list byte := list_byte_of_string s.

(** [int(hashlib.sha1(key).hexdigest(), 16) % n]; Python's [%] takes the sign
    of the divisor, as [Z.modulo] does, and raises on a zero divisor. *)
Definition sha1_mod {S : Type} (key : list byte) (n : Z) : M S Z :=
  if n =? 0 then raise ZeroDivisionError
  else ret (Sha1.digest_int key mod n).

(** ** 03_retention.py *)

Module Retention.

Record Record_ : Type := mkRecord {
  timestamp : Z;
  key : list byte;
  message : string
}.

Record Topic : Type := mkTopic {
  num_partitions : Z;
  retention_seconds : Z;
  partitions : dict Z (dict Z Record_)
}.

(** One line written by [print]; the constructor tells the format string and
    its arguments the interpolated values. *)
Inductive line : Type :=
| Vacuuming_partition (partition : Z)
| Deleting (rec : Record_)
| Vacuum_done
| Missed_some_messages (partition : Z)
| Skipping_ahead (oldest_available_offset : Z).

(** The broker ([topics] is [Broker.topics]) with the part of the process
    around it that the code touches: the clock and the standard output. *)
Record World : Type := mkWorld {
  topics : dict string Topic;
  clock : nat -> Z;
  ticks : nat;
  stdout : list line
}.

Definition set_topics (f : dict string Topic -> dict string Topic) (w : World)
  : World :=
  mkWorld (f (topics w)) (clock w) (ticks w) (stdout w).

(** [time.time()] *)
Definition time_time : M World Z :=
  fun w => (Returned (clock w (ticks w)),
            mkWorld (topics w) (clock w) (S (ticks w)) (stdout w)).

Definition print (l : line) : M World unit :=
  modify (fun w => mkWorld (topics w) (clock w) (ticks w) (stdout w ++ [l])).

(** [Topic(num_partitions, retention_seconds)] *)
Definition Topic_init (num_partitions retention_seconds : Z) : Topic :=
  mkTopic num_partitions retention_seconds
          (map (fun i => (i, [])) (range num_partitions)).

(** the inner loop of [Topic.vacuum]: [items] is the snapshot
    [list(records.items())] still to visit *)
Fixpoint vacuum_records (retention now : Z) (items : list (Z * Record_))
    (records : dict Z Record_) : M World (dict Z Record_) :=
  match items with
  | [] => ret records
  | (offset, rec) :: items' =>
      if timestamp rec + retention <? now then
        print (Deleting rec) ;;;
        records' <- match dict_del offset records with
                    | Some d => ret d
                    | None => raise KeyError
                    end ;;
        vacuum_records retention now items' records'
      else vacuum_records retention now items' records
  end.

(** the outer loop of [Topic.vacuum] *)
Fixpoint vacuum_partitions (retention now : Z)
    (items : list (Z * dict Z Record_)) (parts : dict Z (dict Z Record_))
  : M World (dict Z (dict Z Record_)) :=
  match items with
  | [] => ret parts
  | (partition, records) :: items' =>
      print (Vacuuming_partition partition) ;;;
      records' <- vacuum_records retention now records records ;;
      print Vacuum_done ;;;
      vacuum_partitions retention now items' (dict_set partition records' parts)
  end.

Definition Topic_vacuum (self : Topic) : M World Topic :=
  now <- time_time ;;
  parts <- vacuum_partitions (retention_seconds self) now
                             (partitions self) (partitions self) ;;
  ret (mkTopic (num_partitions self) (retention_seconds self) parts).

Fixpoint vacuum_topics (items : list (string * Topic)) : M World unit :=
  match items with
  | [] => ret tt
  | (name, topic) :: items' =>
      topic' <- Topic_vacuum topic ;;
      modify (set_topics (dict_set name topic')) ;;;
      vacuum_topics items'
  end.

(** [Broker.vacuum] *)
Definition Broker_vacuum : M World value :=
  items <- gets topics ;;
  vacuum_topics items ;;;
  ret VNone.

Definition create_topic (name : string) (num_partitions retention_seconds : Z)
  : M World value :=
  modify (set_topics (dict_set name (Topic_init num_partitions retention_seconds))) ;;;
  ret VNone.

Definition get_first_offset (topic_name : string) (partition : Z) : M World Z :=
  ts <- gets topics ;;
  topic <- getitem KeyError topic_name ts ;;
  records <- getitem KeyError partition (partitions topic) ;;
  let offsets := list_or (dict_keys records) [-1] in
  ret (hd 0 offsets).

Definition get_last_offset (topic_name : string) (partition : Z) : M World Z :=
  ts <- gets topics ;;
  topic <- getitem KeyError topic_name ts ;;
  records <- getitem KeyError partition (partitions topic) ;;
  let offsets := list_or (dict_keys records) [-1] in
  ret (last offsets 0).

Definition send_message (topic_name message : string) (key : option string)
  : M World value :=
  ts <- gets topics ;;
  topic <- getitem KeyError topic_name ts ;;
  let key := encode_utf8 (key_or key message) in
  partition <- sha1_mod key (num_partitions topic) ;;
  now <- time_time ;;
  let record := mkRecord now key message in
  last_offset <- get_last_offset topic_name partition ;;
  let offset := last_offset + 1 in
  records <- getitem KeyError partition (partitions topic) ;;
  let topic' :=
    mkTopic (num_partitions topic) (retention_seconds topic)
            (dict_set partition (dict_set offset record records) (partitions topic)) in
  modify (set_topics (dict_set topic_name topic')) ;;;
  ret VNone.

Definition read_message (topic_name : string) (partition offset : Z)
  : M World value :=
  ts <- gets topics ;;
  topic <- getitem KeyError topic_name ts ;;
  try_except
    (records <- getitem KeyError partition (partitions topic) ;;
     rec <- getitem KeyError offset records ;;
     ret (VStr (message rec)))
    (ret VNone).

Record Consumer : Type := mkConsumer {
  topic : string;
  partition : Z;
  offset : Z
}.

(** [Consumer(broker, topic, partition)] with the default [offset=0] *)
Definition Consumer_init (topic : string) (partition : Z) : Consumer :=
  mkConsumer topic partition 0.

(** a broker call made from a method of the consumer *)
Definition broker_call {A : Type} (m : M World A) : M (Consumer * World) A :=
  fun s =>
    let '(r, w) := m (snd s) in (r, (fst s, w)).

Definition set_offset (o : Z) : M (Consumer * World) unit :=
  modify (fun s => (mkConsumer (topic (fst s)) (partition (fst s)) o, snd s)).

Definition self {A : Type} (f : Consumer -> A) : M (Consumer * World) A :=
  gets (fun s => f (fst s)).

Definition get_next_message : M (Consumer * World) value :=
  self_topic <- self topic ;;
  self_partition <- self partition ;;
  self_offset <- self offset ;;
  oldest_available_offset <- broker_call (get_first_offset self_topic self_partition) ;;
  (if oldest_available_offset >? self_offset then
     broker_call (print (Missed_some_messages self_partition)) ;;;
     broker_call (print (Skipping_ahead oldest_available_offset)) ;;;
     set_offset oldest_available_offset
   else ret tt) ;;;
  newest_available_offset <- broker_call (get_last_offset self_topic self_partition) ;;
  self_offset <- self offset ;;
  if self_offset <=? newest_available_offset then
    msg <- broker_call (read_message self_topic self_partition self_offset) ;;
    set_offset (self_offset + 1) ;;;
    ret msg
  else ret VNone.

(** The calls a program can make on one broker. *)
Inductive call : Type :=
| Create_topic (name : string) (num_partitions retention_seconds : Z)
| Send_message (topic_name message : string) (key : option string)
| Read_message (topic_name : string) (partition offset : Z)
| Vacuum
| Get_next_message (c : Consumer).

Definition run_call (c : call) (w : World) : World :=
  match c with
  | Create_topic name n r => snd (create_topic name n r w)
  | Send_message topic_name message key => snd (send_message topic_name message key w)
  | Read_message topic_name partition offset =>
      snd (read_message topic_name partition offset w)
  | Vacuum => snd (Broker_vacuum w)
  | Get_next_message c => snd (snd (get_next_message (c, w)))
  end.

(** [Broker()] in a fresh process *)
Definition boot (clock : nat -> Z) : World := mkWorld [] clock O [].

(** The worlds a program reaches from a fresh broker, whether its calls
    return or raise. *)
Inductive reachable : World -> Prop :=
| reach_boot (clock : nat -> Z) : reachable (boot clock)
| reach_call (w : World) (c : call) : reachable w -> reachable (run_call c w).

(** *** Vocabulary of the statements about this program *)

(** the world after one more clock reading *)
Definition tick (w : World) : World :=
  mkWorld (topics w) (clock w) (S (ticks w)) (stdout w).

(** what [time.time()] returns next *)
Definition clock_now (w : World) : Z := clock w (ticks w).

(** the world after [out] was printed *)
Definition write (out : list line) (w : World) : World :=
  mkWorld (topics w) (clock w) (ticks w) (stdout w ++ out).

(** the partition index computed on line 104 of the source *)
Definition route (n : Z) (key : option string) (message : string) : Z :=
  Sha1.digest_int (encode_utf8 (key_or key message)) mod n.

(** the topic after [rec] went into [records], the dict of [partition], at
    [offset] *)
Definition stored (t : Topic) (partition offset : Z) (rec : Record_)
    (records : dict Z Record_) : Topic :=
  mkTopic (num_partitions t) (retention_seconds t)
          (dict_set partition (dict_set offset rec records) (partitions t)).

(** the test of line 69, negated: the record stays *)
Definition live (retention now : Z) (kr : Z * Record_) : bool :=
  negb (timestamp (snd kr) + retention <? now).

Definition vacuumed_partition (retention now : Z) (pr : Z * dict Z Record_)
  : Z * dict Z Record_ :=
  (fst pr, filter (live retention now) (snd pr)).

Definition vacuumed_topic (now : Z) (t : Topic) : Topic :=
  mkTopic (num_partitions t) (retention_seconds t)
          (map (vacuumed_partition (retention_seconds t) now) (partitions t)).

(** every topic vacuumed, each with its own reading of the clock *)
Fixpoint vacuumed_topics (clock : nat -> Z) (n : nat)
    (items : list (string * Topic)) : list (string * Topic) :=
  match items with
  | [] => []
  | (name, t) :: items' =>
      (name, vacuumed_topic (clock n) t) :: vacuumed_topics clock (S n) items'
  end.

(** the records stored at [(topic_name, partition)], if there is such a
    partition *)
Definition records_of (w : World) (topic_name : string) (partition : Z)
  : option (dict Z Record_) :=
  match dict_get topic_name (topics w) with
  | Some t => dict_get partition (partitions t)
  | None => None
  end.

Definition monotone (clock : nat -> Z) : Prop :=
  forall i : nat, clock i <= clock (S i).

(** [lo, lo+1, ..., lo+n-1] *)
Definition interval (lo : Z) (n : nat) : list Z :=
  map (fun i => lo + Z.of_nat i) (seq 0 n).

Fixpoint consecutive (ks : list Z) : Prop :=
  match ks with
  | k :: ((k' :: _) as tl) => k' = k + 1 /\ consecutive tl
  | _ => True
  end.

Definition timestamps (recs : dict Z Record_) : list Z :=
  map (fun kr => timestamp (snd kr)) recs.

(** What holds of the records of a partition when the clock has been read
    [n] times: offsets increase along the dict; and if the clock never goes
    back, offsets are consecutive and timestamps do not decrease. *)
Definition records_inv (clock : nat -> Z) (n : nat) (recs : dict Z Record_)
  : Prop :=
  StronglySorted Z.lt (dict_keys recs) /\
  (monotone clock ->
   consecutive (dict_keys recs) /\
   StronglySorted Z.le (timestamps recs) /\
   Forall (fun ts => ts <= clock n) (timestamps recs)).

Definition topic_inv (clock : nat -> Z) (n : nat) (t : Topic) : Prop :=
  dict_keys (partitions t) = range (num_partitions t) /\
  Forall (fun pr => records_inv clock n (snd pr)) (partitions t).

Definition world_inv (w : World) : Prop :=
  NoDup (dict_keys (topics w)) /\
  Forall (fun nt => topic_inv (clock w) (ticks w) (snd nt)) (topics w).

(** [n] polls in a row *)
Fixpoint poll_n (n : nat) (s : Consumer * World)
  : list (outcome value) * (Consumer * World) :=
  match n with
  | O => ([], s)
  | S n' =>
      let '(r, s') := get_next_message s in
      let '(rs, s'') := poll_n n' s' in
      (r :: rs, s'')
  end.

Definition run_calls (cs : list call) (w : World) : World :=
  fold_left (fun w c => run_call c w) cs w.
(** lines 153 to 156: the consumer that fell behind reports it and jumps *)
Definition skip_ahead (oldest : Z) (s : Consumer * World) : Consumer * World :=
  if oldest >? offset (fst s) then
    (mkConsumer (topic (fst s)) (partition (fst s)) oldest,
     write [Missed_some_messages (partition (fst s)); Skipping_ahead oldest] (snd s))
  else s.

(** a call that does not create [topic_name] (again) *)
Definition keeps_topic (topic_name : string) (c : call) : Prop :=
  match c with
  | Create_topic name _ _ => name <> topic_name
  | _ => True
  end.

(** the partition [(topic_name, partition)] holds [rec] at [offset], in a
    topic whose retention is [retention] *)
Definition holds_record (w : World) (topic_name : string) (retention : Z)
    (partition offset : Z) (rec : Record_) : Prop :=
  exists t recs,
    dict_get topic_name (topics w) = Some t /\
    retention_seconds t = retention /\
    dict_get partition (partitions t) = Some recs /\
    dict_get offset recs = Some rec.

(** *** Worlds of the examples *)

(** a clock that advances by ten between two readings *)
Definition clock10 (n : nat) : Z := 10 * Z.of_nat n.

(** one topic of one partition and retention 5, holding ["a"] at offset 0 *)
Definition world_a : World :=
  run_calls [Create_topic "t" 1 5; Send_message "t" "a" None] (boot clock10).

(** the same after a vacuum, which finds ["a"] expired, and a second send *)
Definition world_b : World :=
  run_calls [Vacuum; Send_message "t" "b" None] world_a.

(** three records sent, the first one expired and vacuumed *)
Definition world_gap : World :=
  run_calls [Create_topic "t" 1 15; Send_message "t" "a" None;
             Send_message "t" "b" None; Send_message "t" "c" None; Vacuum]
            (boot clock10).

(** three records sent at times 0, 10 and 20, retention 15, no vacuum yet *)
Definition world_three : World :=
  run_calls [Create_topic "t" 1 15; Send_message "t" "a" None;
             Send_message "t" "b" None; Send_message "t" "c" None]
            (boot clock10).

(** one topic of one partition and retention 15, nothing sent *)
Definition world_empty : World :=
  run_calls [Create_topic "t" 1 15] (boot clock10).

(** three records sent at times 0, 10 and 20, retention 25, then a vacuum
    at time 30: the first record is gone, offsets 1 and 2 are live *)
Definition world_behind : World :=
  run_calls [Create_topic "t" 1 25; Send_message "t" "a" None;
             Send_message "t" "b" None; Send_message "t" "c" None; Vacuum]
            (boot clock10).

(** a clock that reads 0, 10, 20 and then stays at 22 *)
Definition clock_burst (n : nat) : Z :=
  match n with
  | O => 0
  | S O => 10
  | S (S O) => 20
  | _ => 22
  end.

(** retention 5: ["a"] is sent at time 0 *)
Definition world_sent : World :=
  run_calls [Create_topic "t" 1 5; Send_message "t" "a" None] (boot clock_burst).

(** ... a vacuum at time 10 evicts it, ["b"] is sent at time 20, and a
    second vacuum runs at time 22 *)
Definition world_reused : World :=
  run_calls [Vacuum; Send_message "t" "b" None; Vacuum] world_sent.

(** a topic created with the partition count -2 *)
Definition world_negative : World :=
  run_calls [Create_topic "t" (-2) 5] (boot clock10).

(** one topic of two partitions, nothing sent *)
Definition world_two : World :=
  run_calls [Create_topic "t" 2 10] (boot clock10).

End Retention.

(** [l[i]] on a Python list: a negative index counts from the end, [None]
    stands for the IndexError *)
Definition list_index {A : Type} (l : list A) (i : Z) : option A :=
  let n := Z.of_nat (length l) in
  if 0 <=? i then nth_error l (Z.to_nat i)
  else if - n <=? i then nth_error l (Z.to_nat (n + i))
  else None.

(** ** 01_simple_kafka.py *)

Module Simple.

(** [Broker.topics]: each topic is a list of messages *)
Definition Broker : Type := dict string (list string).

Definition create_topic (topic_name : string) : M Broker value :=
  modify (dict_set topic_name []) ;;;
  ret VNone.

Definition send_message (topic_name message : string) : M Broker value :=
  topics <- gets (fun b => b) ;;
  messages <- getitem KeyError topic_name topics ;;
  modify (dict_set topic_name (messages ++ [message])) ;;;
  ret VNone.

Definition read_message (topic_name : string) (offset : Z) : M Broker value :=
  try_except
    (topics <- gets (fun b => b) ;;
     messages <- getitem KeyError topic_name topics ;;
     match list_index messages offset with
     | Some message => ret (VStr message)
     | None => raise IndexError
     end)
    (ret VNone).

Definition get_last_offset (topic_name : string) : M Broker Z :=
  topics <- gets (fun b => b) ;;
  messages <- getitem KeyError topic_name topics ;;
  ret (Z.of_nat (length messages)).

Record Consumer : Type := mkConsumer {
  topic_name : string;
  offset : Z
}.

Definition broker_call {A : Type} (m : M Broker A) : M (Consumer * Broker) A :=
  fun s =>
    let '(r, b) := m (snd s) in (r, (fst s, b)).

Definition set_offset (o : Z) : M (Consumer * Broker) unit :=
  modify (fun s => (mkConsumer (topic_name (fst s)) o, snd s)).

Definition self {A : Type} (f : Consumer -> A) : M (Consumer * Broker) A :=
  gets (fun s => f (fst s)).

Definition get_next_message : M (Consumer * Broker) value :=
  self_topic_name <- self topic_name ;;
  newest_available_offset <- broker_call (get_last_offset self_topic_name) ;;
  self_offset <- self offset ;;
  if self_offset <=? newest_available_offset then
    msg <- broker_call (read_message self_topic_name self_offset) ;;
    set_offset (self_offset + 1) ;;;
    ret msg
  else ret VNone.

(** What a program does next with one consumer and its broker: publish
    somewhere, or poll. *)
Inductive action : Type :=
| Send (topic_name message : string)
| Poll.

Definition run_action (a : action) (s : Consumer * Broker) : Consumer * Broker :=
  match a with
  | Send topic_name message => (fst s, snd (send_message topic_name message (snd s)))
  | Poll => snd (get_next_message s)
  end.

Definition run_actions (acts : list action) (s : Consumer * Broker)
  : Consumer * Broker :=
  fold_left (fun s a => run_action a s) acts s.

(** the broker of the examples: topic ["t"] holding ["x"] *)
Definition broker_x : Broker :=
  snd (send_message "t" "x" (snd (create_topic "t" []))).

(** [n] polls in a row *)
Fixpoint poll_n (n : nat) (s : Consumer * Broker)
  : list (outcome value) * (Consumer * Broker) :=
  match n with
  | O => ([], s)
  | S n' =>
      let '(r, s') := get_next_message s in
      let '(rs, s'') := poll_n n' s' in
      (r :: rs, s'')
  end.

(** topic ["t"] holding ["x"; "y"; "z"] *)
Definition broker_xyz : Broker :=
  snd (send_message "t" "z" (snd (send_message "t" "y" broker_x))).

End Simple.

(** ** 02_partitions.py *)

Module Partitions.

Record Topic : Type := mkTopic {
  num_partitions : Z;
  partitions : dict Z (list string)
}.

Definition Topic_init (num_partitions : Z) : Topic :=
  mkTopic num_partitions (map (fun i => (i, [])) (range num_partitions)).

Definition Broker : Type := dict string Topic.

Definition create_topic (topic_name : string) (num_partitions : Z)
  : M Broker value :=
  modify (dict_set topic_name (Topic_init num_partitions)) ;;;
  ret VNone.

Definition send_message (topic_name message : string) (key : option string)
  : M Broker value :=
  topics <- gets (fun b => b) ;;
  topic <- getitem KeyError topic_name topics ;;
  let key := encode_utf8 (key_or key message) in
  partition <- sha1_mod key (num_partitions topic) ;;
  messages <- getitem KeyError partition (partitions topic) ;;
  let topic' :=
    mkTopic (num_partitions topic)
            (dict_set partition (messages ++ [message]) (partitions topic)) in
  modify (dict_set topic_name topic') ;;;
  ret VNone.

Definition read_message (topic_name : string) (partition offset : Z)
  : M Broker value :=
  topics <- gets (fun b => b) ;;
  topic <- getitem KeyError topic_name topics ;;
  try_except
    (messages <- getitem KeyError partition (partitions topic) ;;
     match list_index messages offset with
     | Some message => ret (VStr message)
     | None => raise IndexError
     end)
    (ret VNone).

Definition get_last_offset (topic_name : string) (partition : Z) : M Broker Z :=
  topics <- gets (fun b => b) ;;
  topic <- getitem KeyError topic_name topics ;;
  messages <- getitem KeyError partition (partitions topic) ;;
  ret (Z.of_nat (length messages)).

Record Consumer : Type := mkConsumer {
  topic : string;
  partition : Z;
  offset : Z
}.

Definition broker_call {A : Type} (m : M Broker A) : M (Consumer * Broker) A :=
  fun s =>
    let '(r, b) := m (snd s) in (r, (fst s, b)).

Definition set_offset (o : Z) : M (Consumer * Broker) unit :=
  modify (fun s => (mkConsumer (topic (fst s)) (partition (fst s)) o, snd s)).

Definition self {A : Type} (f : Consumer -> A) : M (Consumer * Broker) A :=
  gets (fun s => f (fst s)).

Definition get_next_message : M (Consumer * Broker) value :=
  self_topic <- self topic ;;
  self_partition <- self partition ;;
  newest_available_offset <- broker_call (get_last_offset self_topic self_partition) ;;
  self_offset <- self offset ;;
  if self_offset <=? newest_available_offset then
    msg <- broker_call (read_message self_topic self_partition self_offset) ;;
    set_offset (self_offset + 1) ;;;
    ret msg
  else ret VNone.

Inductive action : Type :=
| Send (topic_name message : string) (key : option string)
| Poll.

Definition run_action (a : action) (s : Consumer * Broker) : Consumer * Broker :=
  match a with
  | Send topic_name message key =>
      (fst s, snd (send_message topic_name message key (snd s)))
  | Poll => snd (get_next_message s)
  end.

Definition run_actions (acts : list action) (s : Consumer * Broker)
  : Consumer * Broker :=
  fold_left (fun s a => run_action a s) acts s.

(** the partition index computed on line 76 of the source *)
Definition route (n : Z) (key : option string) (message : string) : Z :=
  Sha1.digest_int (encode_utf8 (key_or key message)) mod n.

(** the messages stored at [(topic_name, partition)], if there is such a
    partition *)
Definition messages_of (b : Broker) (topic_name : string) (partition : Z)
  : option (list string) :=
  match dict_get topic_name b with
  | Some t => dict_get partition (partitions t)
  | None => None
  end.

(** the broker of the examples: topic ["t"] of one partition holding ["x"] *)
Definition broker_x : Broker :=
  snd (send_message "t" "x" None (snd (create_topic "t" 1 []))).

(** [n] polls in a row *)
Fixpoint poll_n (n : nat) (s : Consumer * Broker)
  : list (outcome value) * (Consumer * Broker) :=
  match n with
  | O => ([], s)
  | S n' =>
      let '(r, s') := get_next_message s in
      let '(rs, s'') := poll_n n' s' in
      (r :: rs, s'')
  end.

(** The calls a program can make on one broker. *)
Inductive call : Type :=
| Create_topic (topic_name : string) (num_partitions : Z)
| Send_message (topic_name message : string) (key : option string)
| Read_message (topic_name : string) (partition offset : Z)
| Get_next_message (c : Consumer).

Definition run_call (c : call) (b : Broker) : Broker :=
  match c with
  | Create_topic topic_name n => snd (create_topic topic_name n b)
  | Send_message topic_name message key => snd (send_message topic_name message key b)
  | Read_message topic_name partition offset =>
      snd (read_message topic_name partition offset b)
  | Get_next_message c => snd (snd (get_next_message (c, b)))
  end.

(** The brokers a program reaches from [Broker()], whether its calls return
    or raise. *)
Inductive reachable : Broker -> Prop :=
| reach_new : reachable []
| reach_call (b : Broker) (c : call) : reachable b -> reachable (run_call c b).

(** the partitions of a topic are those of its constructor *)
Definition topic_ok (t : Topic) : Prop :=
  dict_keys (partitions t) = range (num_partitions t).

(** a topic created with the partition count -2 *)
Definition broker_negative : Broker := run_call (Create_topic "t" (-2)) [].

(** topic ["t"] of one partition holding ["x"; "y"; "z"] *)
Definition broker_xyz : Broker :=
  run_call (Send_message "t" "z" None)
    (run_call (Send_message "t" "y" None)
       (run_call (Send_message "t" "x" None)
          (run_call (Create_topic "t" 1) []))).

End Partitions.

(** * The SHA-1 model against the standard's test vectors *)

Example sha1_abc :
  Sha1.digest_int (list_byte_of_string "abc"%string) = 0xa9993e364706816aba3e25717850c26c9cd0d89d.
Proof. vm_compute. reflexivity. Qed.

Example sha1_empty :
  Sha1.digest_int [] = 0xda39a3ee5e6b4b0d3255bfef95601890afd80709.
Proof. vm_compute. reflexivity. Qed.

Example sha1_two_blocks :
  Sha1.digest_int (list_byte_of_string
    "abcdbcdecdefdefgefghfghighijhijkijkljklmklmnlmnomnopnopq"%string)
  = 0x84983e441c3bd26ebaae4aa1f95129e5e54670f1.
Proof. vm_compute. reflexivity. Qed.

(** * Facts about dicts *)

Section DictFacts.
Context {K V : Type} `{DictKey K}.
Implicit Types (k : K) (v : V) (d : dict K V).

Lemma key_eqb_refl k : key_eqb k k = true.
Proof. now apply key_eqb_eq. Qed.

Lemma key_eqb_neq k k' : k <> k' -> key_eqb k k' = false.
Proof.
  intros Hne. destruct (key_eqb k k') eqn:E; [|reflexivity].
  apply key_eqb_eq in E. contradiction.
Qed.

Lemma dict_get_None k d : dict_get k d = None <-> ~ In k (dict_keys d).
Proof.
  induction d as [|[k' v'] d IH]; simpl.
  - tauto.
  - destruct (key_eqb k k') eqn:E.
    + apply key_eqb_eq in E. subst. split; [discriminate | tauto].
    + rewrite IH. split.
      * intros Hn [->|Hin]; [|tauto]. now rewrite key_eqb_refl in E.
      * tauto.
Qed.

Lemma dict_get_In k v d : dict_get k d = Some v -> In (k, v) d.
Proof.
  induction d as [|[k' v'] d IH]; simpl; [discriminate|].
  destruct (key_eqb k k') eqn:E.
  - apply key_eqb_eq in E. subst. intros [= ->]. now left.
  - auto.
Qed.

Lemma dict_get_app_r k d d' :
  ~ In k (dict_keys d) -> dict_get k (d ++ d') = dict_get k d'.
Proof.
  induction d as [|[k' v'] d IH]; simpl; [reflexivity|].
  intros Hn. rewrite key_eqb_neq by (intros ->; tauto). apply IH. tauto.
Qed.

Lemma dict_get_set_same k v d : dict_get k (dict_set k v d) = Some v.
Proof.
  induction d as [|[k' v'] d IH]; simpl.
  - now rewrite key_eqb_refl.
  - destruct (key_eqb k k') eqn:E; simpl; now rewrite E.
Qed.

Lemma dict_get_set_other k k' v d :
  k <> k' -> dict_get k' (dict_set k v d) = dict_get k' d.
Proof.
  intros Hne. induction d as [|[k0 v0] d IH]; simpl.
  - rewrite key_eqb_neq; auto.
  - destruct (key_eqb k k0) eqn:E; simpl.
    + apply key_eqb_eq in E. subst k0.
      now rewrite (key_eqb_neq k' k) by congruence.
    + now rewrite IH.
Qed.

(** A new key goes to the end. *)
Lemma dict_set_fresh k v d :
  dict_get k d = None -> dict_set k v d = d ++ [(k, v)].
Proof.
  induction d as [|[k' v'] d IH]; simpl; [reflexivity|].
  destruct (key_eqb k k'); [discriminate|].
  intros Hn. now rewrite IH.
Qed.

(** An existing key is overwritten where it stands. *)
Lemma dict_set_at k v v0 d1 d2 :
  ~ In k (dict_keys d1) ->
  dict_set k v (d1 ++ (k, v0) :: d2) = d1 ++ (k, v) :: d2.
Proof.
  induction d1 as [|[k' v'] d1 IH]; simpl; intros Hn.
  - now rewrite key_eqb_refl.
  - rewrite key_eqb_neq by (intros ->; tauto). rewrite IH; tauto.
Qed.

Lemma dict_del_at k v0 d1 d2 :
  ~ In k (dict_keys d1) ->
  dict_del k (d1 ++ (k, v0) :: d2) = Some (d1 ++ d2).
Proof.
  induction d1 as [|[k' v'] d1 IH]; simpl; intros Hn.
  - now rewrite key_eqb_refl.
  - rewrite key_eqb_neq by (intros ->; tauto). rewrite IH; tauto.
Qed.

Lemma dict_get_split k v d :
  dict_get k d = Some v ->
  exists d1 d2, d = d1 ++ (k, v) :: d2 /\ ~ In k (dict_keys d1).
Proof.
  induction d as [|[k' v'] d IH]; simpl; [discriminate|].
  destruct (key_eqb k k') eqn:E.
  - apply key_eqb_eq in E. subst k'. intros [= ->].
    exists [], d. simpl. tauto.
  - intros Hg. destruct (IH Hg) as (d1 & d2 & -> & Hn).
    exists ((k', v') :: d1), d2. simpl. split; [reflexivity|].
    intros [->|Hin]; [|tauto]. now rewrite key_eqb_refl in E.
Qed.

Lemma dict_keys_app d d' : dict_keys (d ++ d') = dict_keys d ++ dict_keys d'.
Proof. apply map_app. Qed.

End DictFacts.

Lemma In_range n p : In p (range n) <-> 0 <= p < n.
Proof.
  unfold range. rewrite in_map_iff. split.
  - intros (i & <- & Hin). apply in_seq in Hin. lia.
  - intros Hp. exists (Z.to_nat p). split; [lia|]. apply in_seq. lia.
Qed.

Lemma NoDup_range n : NoDup (range n).
Proof.
  unfold range. generalize (seq_NoDup (Z.to_nat n) 0).
  induction (seq 0 (Z.to_nat n)) as [|a l IH]; simpl; intros Hnd.
  - constructor.
  - inversion Hnd as [|? ? Hn Hnd']; subst. constructor; [|auto].
    rewrite in_map_iff. intros (b & Hb & Hin).
    apply Nat2Z.inj in Hb. now subst.
Qed.

(** * 03_retention.py: what each call does to the world *)

Module RetentionFacts.
Import Retention.

Ltac run_monad :=
  unfold bind, ret, gets, getitem, raise, modify, try_except, sha1_mod; simpl.

Lemma write_nil w : write [] w = w.
Proof. destruct w. unfold write. simpl. now rewrite app_nil_r. Qed.

Lemma write_write out out' w : write out' (write out w) = write (out ++ out') w.
Proof. unfold write. simpl. now rewrite app_assoc. Qed.

Lemma create_topic_run name n r w :
  create_topic name n r w
  = (Returned VNone, set_topics (dict_set name (Topic_init n r)) w).
Proof. reflexivity. Qed.

Lemma get_first_offset_run tn p w t recs :
  dict_get tn (topics w) = Some t ->
  dict_get p (partitions t) = Some recs ->
  get_first_offset tn p w = (Returned (hd 0 (list_or (dict_keys recs) [-1])), w).
Proof.
  intros Ht Hp. unfold get_first_offset. run_monad.
  rewrite Ht. simpl. now rewrite Hp.
Qed.

Lemma get_last_offset_run tn p w t recs :
  dict_get tn (topics w) = Some t ->
  dict_get p (partitions t) = Some recs ->
  get_last_offset tn p w = (Returned (last (list_or (dict_keys recs) [-1]) 0), w).
Proof.
  intros Ht Hp. unfold get_last_offset. run_monad.
  rewrite Ht. simpl. now rewrite Hp.
Qed.

Lemma read_message_unknown_topic tn p off w :
  dict_get tn (topics w) = None ->
  read_message tn p off w = (Raised KeyError, w).
Proof. intros Ht. unfold read_message. run_monad. now rewrite Ht. Qed.

Lemma read_message_run tn p off w t :
  dict_get tn (topics w) = Some t ->
  read_message tn p off w
  = (Returned match dict_get p (partitions t) with
              | Some recs =>
                  match dict_get off recs with
                  | Some rec => VStr (message rec)
                  | None => VNone
                  end
              | None => VNone
              end, w).
Proof.
  intros Ht. unfold read_message. run_monad. rewrite Ht. simpl.
  destruct (dict_get p (partitions t)) as [recs|]; simpl; [|reflexivity].
  now destruct (dict_get off recs).
Qed.

Lemma read_message_world tn p off w : snd (read_message tn p off w) = w.
Proof.
  destruct (dict_get tn (topics w)) as [t|] eqn:Ht.
  - now rewrite (read_message_run _ _ _ _ _ Ht).
  - now rewrite read_message_unknown_topic.
Qed.

Lemma send_message_unknown_topic tn m k w :
  dict_get tn (topics w) = None ->
  send_message tn m k w = (Raised KeyError, w).
Proof. intros Ht. unfold send_message. run_monad. now rewrite Ht. Qed.

Lemma send_message_no_partitions tn m k w t :
  dict_get tn (topics w) = Some t ->
  num_partitions t = 0 ->
  send_message tn m k w = (Raised ZeroDivisionError, w).
Proof.
  intros Ht Hn. unfold send_message. run_monad. rewrite Ht. simpl.
  now rewrite Hn.
Qed.

Lemma send_message_no_partition tn m k w t :
  dict_get tn (topics w) = Some t ->
  num_partitions t <> 0 ->
  dict_get (route (num_partitions t) k m) (partitions t) = None ->
  send_message tn m k w = (Raised KeyError, tick w).
Proof.
  intros Ht Hn Hp. unfold send_message, get_last_offset. run_monad.
  rewrite Ht. simpl.
  destruct (Z.eqb_spec (num_partitions t) 0) as [|_]; [contradiction|]. simpl.
  rewrite Ht. simpl. fold (route (num_partitions t) k m). now rewrite Hp.
Qed.

Lemma send_message_run tn m k w t recs :
  dict_get tn (topics w) = Some t ->
  num_partitions t <> 0 ->
  dict_get (route (num_partitions t) k m) (partitions t) = Some recs ->
  send_message tn m k w
  = (Returned VNone,
     set_topics
       (dict_set tn
          (stored t (route (num_partitions t) k m)
                  (last (list_or (dict_keys recs) [-1]) 0 + 1)
                  (mkRecord (clock_now w) (encode_utf8 (key_or k m)) m)
                  recs))
       (tick w)).
Proof.
  intros Ht Hn Hp. unfold send_message, get_last_offset. run_monad.
  rewrite Ht. simpl.
  destruct (Z.eqb_spec (num_partitions t) 0) as [|_]; [contradiction|]. simpl.
  rewrite Ht. simpl. fold (route (num_partitions t) k m). rewrite Hp.
  reflexivity.
Qed.

(** ** Vacuum, as a filter *)

Lemma NoDup_app_cons_inv {A : Type} (l1 l2 : list A) (a : A) :
  NoDup (l1 ++ a :: l2) -> ~ In a l1 /\ NoDup (l1 ++ l2).
Proof.
  intros Hnd. apply NoDup_remove in Hnd. destruct Hnd as [Hnd Hn].
  split; [|assumption]. intros Hin. apply Hn. apply in_or_app. now left.
Qed.

Lemma vacuum_records_run r now items : forall kept w,
  NoDup (dict_keys (kept ++ items)) ->
  exists out,
    vacuum_records r now items (kept ++ items) w
    = (Returned (kept ++ filter (live r now) items), write out w).
Proof.
  induction items as [|[o rec] items IH]; intros kept w Hnd.
  - exists []. simpl. now rewrite write_nil.
  - simpl. unfold live at 1. simpl.
    destruct (timestamp rec + r <? now) eqn:E; simpl.
    + rewrite dict_keys_app in Hnd. simpl in Hnd.
      apply NoDup_app_cons_inv in Hnd. destruct Hnd as [Hn Hnd].
      rewrite <- dict_keys_app in Hnd.
      destruct (IH kept (write [Deleting rec] w) Hnd) as [out Hrun].
      exists (Deleting rec :: out).
      unfold bind at 1. unfold print, modify. fold (write [Deleting rec] w).
      unfold bind at 1. rewrite dict_del_at by assumption.
      unfold ret at 1. rewrite Hrun. now rewrite write_write.
    + replace (kept ++ (o, rec) :: items) with ((kept ++ [(o, rec)]) ++ items)
        in * by (now rewrite <- app_assoc).
      destruct (IH (kept ++ [(o, rec)]) w Hnd) as [out Hrun].
      exists out. rewrite Hrun. now rewrite <- app_assoc.
Qed.

Lemma vacuum_partitions_run r now items : forall done w,
  NoDup (dict_keys (done ++ items)) ->
  Forall (fun pr => NoDup (dict_keys (snd pr))) items ->
  exists out,
    vacuum_partitions r now items (done ++ items) w
    = (Returned (done ++ map (vacuumed_partition r now) items), write out w).
Proof.
  induction items as [|[p recs] items IH]; intros done w Hnd Hall.
  - exists []. simpl. now rewrite write_nil.
  - inversion Hall as [|? ? Hrecs Hall']; subst. simpl in Hrecs.
    destruct (vacuum_records_run r now recs [] (write [Vacuuming_partition p] w) Hrecs)
      as [out1 Hrun1]. simpl in Hrun1.
    assert (Hn : ~ In p (dict_keys done)).
    { rewrite dict_keys_app in Hnd. simpl in Hnd.
      now apply NoDup_app_cons_inv in Hnd. }
    assert (Hnd' : NoDup (dict_keys ((done ++ [(p, filter (live r now) recs)]) ++ items))).
    { rewrite <- app_assoc. simpl. rewrite dict_keys_app in *. exact Hnd. }
    destruct (IH (done ++ [(p, filter (live r now) recs)])
                 (write [Vacuum_done] (write out1 (write [Vacuuming_partition p] w)))
                 Hnd' Hall') as [out2 Hrun2].
    exists ((Vacuuming_partition p :: out1) ++ Vacuum_done :: out2).
    simpl. unfold bind at 1. unfold print at 1, modify.
    fold (write [Vacuuming_partition p] w).
    unfold bind at 1. rewrite Hrun1.
    unfold bind at 1. unfold print at 1, modify.
    fold (write [Vacuum_done] (write out1 (write [Vacuuming_partition p] w))).
    rewrite dict_set_at by assumption.
    rewrite <- app_assoc in Hrun2. cbn [app] in Hrun2.
    refine (eq_trans Hrun2 _).
    rewrite !write_write. rewrite <- !app_assoc. reflexivity.
Qed.

(** ** The invariant of the records, and time *)

Lemma monotone_le clock (i j : nat) :
  monotone clock -> (i <= j)%nat -> clock i <= clock j.
Proof.
  intros Hm Hij. induction Hij as [|j Hij IH]; [lia|].
  specialize (Hm j). lia.
Qed.

Lemma records_inv_later clock (n n' : nat) recs :
  (n <= n')%nat -> records_inv clock n recs -> records_inv clock n' recs.
Proof.
  intros Hn [Hs Hm]. split; [assumption|]. intros Hmono.
  destruct (Hm Hmono) as (Hc & Hts & Hb). repeat split; try assumption.
  eapply Forall_impl; [|exact Hb]. intros ts Hle. simpl in Hle.
  pose proof (monotone_le clock n n' Hmono Hn). lia.
Qed.

Lemma topic_inv_later clock (n n' : nat) t :
  (n <= n')%nat -> topic_inv clock n t -> topic_inv clock n' t.
Proof.
  intros Hn [Hk Hall]. split; [assumption|].
  eapply Forall_impl; [|exact Hall]. intros pr. now apply records_inv_later.
Qed.

Lemma topic_inv_tick clock n t : topic_inv clock n t -> topic_inv clock (S n) t.
Proof. apply topic_inv_later. lia. Qed.

Lemma StronglySorted_lt_NoDup (l : list Z) : StronglySorted Z.lt l -> NoDup l.
Proof.
  induction 1 as [|a l Hs IH Hall]; constructor; [|assumption].
  intros Hin. rewrite Forall_forall in Hall. specialize (Hall a Hin). lia.
Qed.

Lemma topic_inv_NoDup clock n t :
  topic_inv clock n t ->
  NoDup (dict_keys (partitions t)) /\
  Forall (fun pr => NoDup (dict_keys (snd pr))) (partitions t).
Proof.
  intros [Hkeys Hall]. split.
  - rewrite Hkeys. apply NoDup_range.
  - eapply Forall_impl; [|exact Hall]. intros pr [Hs _].
    now apply StronglySorted_lt_NoDup.
Qed.

Lemma Topic_vacuum_run clock n t w :
  topic_inv clock n t ->
  exists out,
    Topic_vacuum t w
    = (Returned (vacuumed_topic (clock_now w) t), write out (tick w)).
Proof.
  intros Hinv. destruct (topic_inv_NoDup _ _ _ Hinv) as [Hnd Hall].
  destruct (vacuum_partitions_run (retention_seconds t) (clock_now w)
              (partitions t) [] (tick w) Hnd Hall) as [out Hrun].
  exists out. unfold Topic_vacuum, bind at 1, time_time.
  fold (tick w). fold (clock_now w). unfold bind at 1.
  simpl in Hrun. now rewrite Hrun.
Qed.

Lemma vacuumed_topics_keys clock n items :
  dict_keys (vacuumed_topics clock n items) = dict_keys items.
Proof.
  revert n. induction items as [|[name t] items IH]; intros n; simpl;
    [reflexivity|]. now rewrite IH.
Qed.

Lemma vacuum_topics_run items : forall done w,
  topics w = done ++ items ->
  NoDup (dict_keys (done ++ items)) ->
  Forall (fun nt => topic_inv (clock w) (ticks w) (snd nt)) items ->
  exists out,
    vacuum_topics items w
    = (Returned tt,
       mkWorld (done ++ vacuumed_topics (clock w) (ticks w) items) (clock w)
               (ticks w + length items) (stdout w ++ out)).
Proof.
  induction items as [|[name t] items IH]; intros done w Htopics Hnd Hall.
  - exists []. simpl. rewrite <- Htopics, Nat.add_0_r, app_nil_r.
    now destruct w.
  - inversion Hall as [|? ? Ht Hall']; subst. simpl in Ht.
    destruct (Topic_vacuum_run _ _ _ w Ht) as [out1 Hrun1].
    assert (Hn : ~ In name (dict_keys done)).
    { rewrite dict_keys_app in Hnd. simpl in Hnd.
      now apply NoDup_app_cons_inv in Hnd. }
    set (t' := vacuumed_topic (clock_now w) t) in *.
    set (w1 := set_topics (dict_set name t') (write out1 (tick w))).
    assert (Htopics1 : topics w1 = (done ++ [(name, t')]) ++ items).
    { unfold w1. simpl. rewrite Htopics, dict_set_at by assumption.
      now rewrite <- app_assoc. }
    assert (Hnd1 : NoDup (dict_keys ((done ++ [(name, t')]) ++ items))).
    { rewrite <- app_assoc. simpl. rewrite dict_keys_app in *. exact Hnd. }
    assert (Hall1 : Forall (fun nt => topic_inv (clock w1) (ticks w1) (snd nt)) items).
    { eapply Forall_impl; [|exact Hall']. intros nt Hnt.
      now apply topic_inv_tick. }
    destruct (IH _ w1 Htopics1 Hnd1 Hall1) as [out2 Hrun2].
    exists (out1 ++ out2). simpl. unfold bind at 1. rewrite Hrun1.
    unfold bind at 1, modify. fold w1. refine (eq_trans Hrun2 _).
    unfold w1, clock_now. simpl. rewrite <- !app_assoc. simpl.
    now rewrite Nat.add_succ_r.
Qed.

Lemma Broker_vacuum_run w :
  world_inv w ->
  exists out,
    Broker_vacuum w
    = (Returned VNone,
       mkWorld (vacuumed_topics (clock w) (ticks w) (topics w)) (clock w)
               (ticks w + length (topics w)) (stdout w ++ out)).
Proof.
  intros [Hnd Hall].
  destruct (vacuum_topics_run (topics w) [] w eq_refl Hnd Hall) as [out Hrun].
  exists out. unfold Broker_vacuum, bind at 1, gets. unfold bind at 1.
  now rewrite Hrun.
Qed.

(** ** Lists of offsets *)

Lemma StronglySorted_map_filter {A B : Type} (R : B -> B -> Prop) (g : A -> B)
    (f : A -> bool) (l : list A) :
  StronglySorted R (map g l) -> StronglySorted R (map g (filter f l)).
Proof.
  induction l as [|a l IH]; simpl; intros Hs; [constructor|].
  inversion Hs as [|? ? Hs' Hall]; subst.
  destruct (f a); simpl; [|auto].
  constructor; [auto|].
  rewrite Forall_forall in *. intros b Hb. apply Hall.
  rewrite in_map_iff in *. destruct Hb as (x & <- & Hx).
  apply filter_In in Hx. exists x. tauto.
Qed.

Lemma StronglySorted_snoc {A : Type} (R : A -> A -> Prop) (l : list A) (a : A) :
  StronglySorted R l -> Forall (fun x => R x a) l -> StronglySorted R (l ++ [a]).
Proof.
  induction 1 as [|b l Hs IH Hall]; simpl; intros Hl.
  - repeat constructor.
  - inversion Hl; subst. constructor; [auto|].
    apply Forall_app. split; [assumption|]. now constructor.
Qed.

Lemma StronglySorted_skipn {A : Type} (R : A -> A -> Prop) (k : nat) (l : list A) :
  StronglySorted R l -> StronglySorted R (skipn k l).
Proof.
  revert l. induction k as [|k IH]; intros l Hs; [assumption|].
  destruct l as [|a l]; [constructor|]. simpl. apply IH. now inversion Hs.
Qed.

Lemma Forall_skipn {A : Type} (P : A -> Prop) (k : nat) (l : list A) :
  Forall P l -> Forall P (skipn k l).
Proof.
  revert l. induction k as [|k IH]; intros l Hl; [assumption|].
  destruct l as [|a l]; [constructor|]. simpl. apply IH. now inversion Hl.
Qed.

Lemma sorted_le_last (l : list Z) (d k : Z) :
  StronglySorted Z.lt l -> In k l -> k <= last l d.
Proof.
  intros Hs. revert k. induction Hs as [|a l Hs IH Hall]; [contradiction|].
  intros k [->|Hin].
  - destruct l as [|b l]; [simpl; lia|].
    change (last (k :: b :: l) d) with (last (b :: l) d).
    inversion Hall as [|? ? Hab _]; subst.
    specialize (IH b (or_introl eq_refl)). lia.
  - destruct l as [|b l]; [contradiction|].
    change (last (a :: b :: l) d) with (last (b :: l) d). auto.
Qed.

Lemma sorted_hd_le_last (l : list Z) (d d' : Z) :
  StronglySorted Z.lt l -> l <> [] -> hd d l <= last l d'.
Proof.
  intros Hs Hne. destruct l as [|a l]; [contradiction|].
  apply sorted_le_last; [assumption|now left].
Qed.

Lemma consecutive_skipn (k : nat) (l : list Z) :
  consecutive l -> consecutive (skipn k l).
Proof.
  revert l. induction k as [|k IH]; intros l Hc; [assumption|].
  destruct l as [|a l]; [exact I|]. simpl skipn. apply IH.
  destruct l as [|b l]; [exact I|]. now destruct Hc.
Qed.

Lemma consecutive_snoc (l : list Z) (d : Z) :
  consecutive l -> l <> [] -> consecutive (l ++ [last l d + 1]).
Proof.
  induction l as [|a l IH]; [contradiction|]. intros Hc _.
  destruct l as [|b l].
  - simpl. auto.
  - destruct Hc as [Hb Hc]. split; [assumption|].
    apply IH; [assumption|discriminate].
Qed.

Lemma consecutive_interval (l : list Z) :
  consecutive l -> l = interval (hd 0 l) (length l).
Proof.
  unfold interval. induction l as [|a l IH]; [reflexivity|]. intros Hc.
  simpl. f_equal; [lia|]. rewrite <- seq_shift, map_map.
  destruct l as [|b l]; [reflexivity|]. destruct Hc as [-> Hc].
  rewrite (IH Hc) at 1. simpl hd. apply map_ext. intros i. lia.
Qed.

Lemma dict_keys_filter_skipn (f : Z * Record_ -> bool) (k : nat)
    (recs : dict Z Record_) :
  filter f recs = skipn k recs -> dict_keys (filter f recs) = skipn k (dict_keys recs).
Proof. intros ->. unfold dict_keys. now rewrite skipn_map. Qed.

(** With timestamps in order, the expired records are the first ones. *)
Lemma filter_live_skipn r now (recs : dict Z Record_) :
  StronglySorted Z.le (timestamps recs) ->
  exists k : nat, filter (live r now) recs = skipn k recs.
Proof.
  induction recs as [|[o rec] recs IH]; intros Hs.
  - exists O. reflexivity.
  - inversion Hs as [|? ? Hs' Hall]; subst. simpl.
    unfold live at 1. simpl.
    destruct (timestamp rec + r <? now) eqn:E; simpl.
    + destruct (IH Hs') as [k Hk]. exists (S k). exact Hk.
    + exists O. simpl. f_equal. apply Z.ltb_ge in E.
      clear IH Hs Hs'. induction recs as [|[o' rec'] recs IH]; [reflexivity|].
      inversion Hall as [|? ? Hle Hall']; subst. simpl in Hle. simpl.
      unfold live at 1. simpl.
      replace (timestamp rec' + r <? now) with false
        by (symmetry; apply Z.ltb_ge; lia).
      simpl. f_equal. auto.
Qed.

(** ** The invariant is kept by every call *)

Lemma records_inv_nil clock n : records_inv clock n [].
Proof. split; [constructor|]. intros _. repeat split; constructor. Qed.

(** The offset that [send_message] computes is not in use. *)
Lemma next_offset_fresh (recs : dict Z Record_) :
  StronglySorted Z.lt (dict_keys recs) ->
  Forall (fun k => k < last (list_or (dict_keys recs) [-1]) 0 + 1) (dict_keys recs).
Proof.
  intros Hs. apply Forall_forall. intros k Hin.
  assert (Hl : list_or (dict_keys recs) [-1] = dict_keys recs)
    by (destruct (dict_keys recs); [contradiction|reflexivity]).
  rewrite Hl. pose proof (sorted_le_last _ 0 k Hs Hin). lia.
Qed.

Lemma next_offset_append (recs : dict Z Record_) (rec : Record_) :
  StronglySorted Z.lt (dict_keys recs) ->
  dict_set (last (list_or (dict_keys recs) [-1]) 0 + 1) rec recs
  = recs ++ [(last (list_or (dict_keys recs) [-1]) 0 + 1, rec)].
Proof.
  intros Hs. apply dict_set_fresh. apply dict_get_None. intros Hin.
  pose proof (next_offset_fresh recs Hs) as Hall.
  rewrite Forall_forall in Hall. specialize (Hall _ Hin). lia.
Qed.

Lemma records_inv_append clock n recs key m :
  records_inv clock n recs ->
  records_inv clock (S n)
    (dict_set (last (list_or (dict_keys recs) [-1]) 0 + 1)
              (mkRecord (clock n) key m) recs).
Proof.
  intros [Hs Hm]. rewrite next_offset_append by assumption.
  split.
  - rewrite dict_keys_app. simpl. apply StronglySorted_snoc; [assumption|].
    now apply next_offset_fresh.
  - intros Hmono. destruct (Hm Hmono) as (Hc & Hts & Hb).
    unfold timestamps in *. rewrite dict_keys_app, map_app. simpl.
    repeat split.
    + destruct (dict_keys recs) as [|k ks] eqn:E; [exact I|].
      change (list_or (k :: ks) [-1]) with (k :: ks).
      apply consecutive_snoc; [assumption|discriminate].
    + apply StronglySorted_snoc; assumption.
    + apply Forall_app. split.
      * eapply Forall_impl; [|exact Hb]. intros ts Hle. simpl in Hle.
        specialize (Hmono n). lia.
      * constructor; [|constructor]. apply Hmono.
Qed.

Lemma records_inv_filter clock n r now recs :
  records_inv clock n recs -> records_inv clock n (filter (live r now) recs).
Proof.
  intros [Hs Hm]. split.
  - now apply StronglySorted_map_filter.
  - intros Hmono. destruct (Hm Hmono) as (Hc & Hts & Hb).
    destruct (filter_live_skipn r now recs Hts) as [k Hk].
    rewrite (dict_keys_filter_skipn _ k) by assumption.
    unfold timestamps in *. rewrite Hk, <- skipn_map.
    repeat split.
    + now apply consecutive_skipn.
    + now apply StronglySorted_skipn.
    + now apply Forall_skipn.
Qed.

Lemma topic_inv_init clock n num r : topic_inv clock n (Topic_init num r).
Proof.
  split; simpl.
  - unfold dict_keys. rewrite map_map. simpl. apply map_id.
  - apply Forall_forall. intros pr Hin. apply in_map_iff in Hin.
    destruct Hin as (i & <- & _). apply records_inv_nil.
Qed.

Lemma topic_inv_vacuumed clock n now t :
  topic_inv clock n t -> topic_inv clock n (vacuumed_topic now t).
Proof.
  intros [Hk Hall]. split; simpl.
  - rewrite <- Hk. unfold dict_keys. rewrite map_map. reflexivity.
  - apply Forall_forall. intros pr Hin. apply in_map_iff in Hin.
    destruct Hin as (pr0 & <- & Hin0). rewrite Forall_forall in Hall.
    simpl. apply records_inv_filter. now apply Hall.
Qed.

Section DictInvariants.
Context {K V : Type} `{DictKey K}.

Lemma dict_keys_set_NoDup (k : K) (v : V) (d : dict K V) :
  NoDup (dict_keys d) -> NoDup (dict_keys (dict_set k v d)).
Proof.
  destruct (dict_get k d) as [v0|] eqn:E.
  - destruct (dict_get_split _ _ _ E) as (d1 & d2 & -> & Hn).
    rewrite dict_set_at by assumption. now rewrite !dict_keys_app.
  - rewrite dict_set_fresh by assumption. rewrite dict_keys_app. simpl.
    intros Hnd. apply NoDup_rev in Hnd. rewrite <- (rev_involutive (_ ++ _)).
    apply NoDup_rev. rewrite rev_app_distr. simpl. constructor; [|assumption].
    rewrite <- in_rev. now apply dict_get_None.
Qed.

Lemma dict_keys_set_present (k : K) (v v0 : V) (d : dict K V) :
  dict_get k d = Some v0 -> dict_keys (dict_set k v d) = dict_keys d.
Proof.
  intros E. destruct (dict_get_split _ _ _ E) as (d1 & d2 & -> & Hn).
  rewrite dict_set_at by assumption. now rewrite !dict_keys_app.
Qed.

Lemma Forall_dict_set (Q : V -> Prop) (k : K) (v : V) (d : dict K V) :
  Forall (fun kv => Q (snd kv)) d -> Q v ->
  Forall (fun kv => Q (snd kv)) (dict_set k v d).
Proof.
  intros Hall Hv. induction d as [|[k' v'] d IH]; simpl.
  - now repeat constructor.
  - inversion Hall; subst. destruct (key_eqb k k'); constructor; auto.
Qed.

Lemma Forall_dict_get (Q : V -> Prop) (k : K) (v : V) (d : dict K V) :
  Forall (fun kv => Q (snd kv)) d -> dict_get k d = Some v -> Q v.
Proof.
  intros Hall Hg. apply dict_get_In in Hg. rewrite Forall_forall in Hall.
  exact (Hall _ Hg).
Qed.
End DictInvariants.

Lemma topic_inv_stored clock n t p recs key m :
  topic_inv clock n t ->
  dict_get p (partitions t) = Some recs ->
  topic_inv clock (S n)
    (stored t p (last (list_or (dict_keys recs) [-1]) 0 + 1)
            (mkRecord (clock n) key m) recs).
Proof.
  intros Hinv Hp. pose proof (topic_inv_tick _ _ _ Hinv) as [Hk Hall].
  destruct Hinv as [_ Hall0].
  split; simpl.
  - now rewrite (dict_keys_set_present _ _ _ _ Hp).
  - apply (Forall_dict_set (records_inv clock (S n))); [assumption|].
    apply records_inv_append.
    exact (Forall_dict_get (records_inv clock n) _ _ _ Hall0 Hp).
Qed.

Lemma world_inv_boot clock : world_inv (boot clock).
Proof. split; constructor. Qed.

Lemma world_inv_write out w : world_inv (write out w) <-> world_inv w.
Proof. reflexivity. Qed.

Lemma world_inv_tick w : world_inv w -> world_inv (tick w).
Proof.
  intros [Hnd Hall]. split; [assumption|]. simpl.
  eapply Forall_impl; [|exact Hall]. intros nt. apply topic_inv_tick.
Qed.

Lemma world_inv_create_topic name n r w :
  world_inv w -> world_inv (snd (create_topic name n r w)).
Proof.
  intros [Hnd Hall]. rewrite create_topic_run. split; simpl.
  - now apply dict_keys_set_NoDup.
  - apply (Forall_dict_set (topic_inv (clock w) (ticks w))); [assumption|].
    apply topic_inv_init.
Qed.

Lemma world_inv_send_message tn m k w :
  world_inv w -> world_inv (snd (send_message tn m k w)).
Proof.
  intros Hinv. destruct (dict_get tn (topics w)) as [t|] eqn:Ht.
  2: { now rewrite send_message_unknown_topic. }
  destruct (Z.eq_dec (num_partitions t) 0) as [Hz|Hnz].
  { now rewrite (send_message_no_partitions _ _ _ _ _ Ht Hz). }
  destruct (dict_get (route (num_partitions t) k m) (partitions t)) as [recs|] eqn:Hp.
  2: { rewrite (send_message_no_partition _ _ _ _ _ Ht Hnz Hp). simpl.
       now apply world_inv_tick. }
  rewrite (send_message_run _ _ _ _ _ _ Ht Hnz Hp). simpl.
  pose proof (world_inv_tick _ Hinv) as [Hnd Hall]. destruct Hinv as [_ Hall0].
  split; simpl.
  - now apply dict_keys_set_NoDup.
  - apply (Forall_dict_set (topic_inv (clock w) (S (ticks w)))); [assumption|].
    apply topic_inv_stored; [|assumption].
    exact (Forall_dict_get (topic_inv (clock w) (ticks w)) _ _ _ Hall0 Ht).
Qed.

Lemma Forall_vacuumed_topics clock (n n' : nat) items : forall k : nat,
  (n <= n')%nat ->
  Forall (fun nt => topic_inv clock n (snd nt)) items ->
  Forall (fun nt => topic_inv clock n' (snd nt)) (vacuumed_topics clock k items).
Proof.
  induction items as [|[name t] items IH]; intros k Hn Hall; simpl;
    [constructor|].
  inversion Hall as [|? ? Ht Hall']; subst. constructor; [|auto].
  simpl in *. apply topic_inv_vacuumed. now apply (topic_inv_later clock n n').
Qed.

Lemma world_inv_vacuum w : world_inv w -> world_inv (snd (Broker_vacuum w)).
Proof.
  intros Hinv. destruct (Broker_vacuum_run w Hinv) as [out ->].
  destruct Hinv as [Hnd Hall]. split; simpl.
  - now rewrite vacuumed_topics_keys.
  - apply (Forall_vacuumed_topics _ (ticks w)); [lia|assumption].
Qed.

(** ** The consumer *)

Lemma get_next_message_unbound c w :
  records_of w (topic c) (partition c) = None ->
  get_next_message (c, w) = (Raised KeyError, (c, w)).
Proof.
  unfold records_of. intros Hr.
  unfold get_next_message, self, broker_call, get_first_offset. run_monad.
  destruct (dict_get (topic c) (topics w)) as [t|]; simpl; [|reflexivity].
  now rewrite Hr.
Qed.

Lemma get_next_message_run c w recs :
  records_of w (topic c) (partition c) = Some recs ->
  get_next_message (c, w)
  = let oldest := hd 0 (list_or (dict_keys recs) [-1]) in
    let newest := last (list_or (dict_keys recs) [-1]) 0 in
    let s := skip_ahead oldest (c, w) in
    if offset (fst s) <=? newest then
      (Returned match dict_get (offset (fst s)) recs with
                | Some rec => VStr (message rec)
                | None => VNone
                end,
       (mkConsumer (topic c) (partition c) (offset (fst s) + 1), snd s))
    else (Returned VNone, s).
Proof.
  unfold records_of. intros Hr.
  destruct (dict_get (topic c) (topics w)) as [t|] eqn:Ht; [|discriminate].
  unfold get_next_message, self, broker_call. run_monad.
  rewrite (get_first_offset_run _ _ _ _ _ Ht Hr). simpl.
  unfold skip_ahead. simpl.
  destruct (hd 0 (list_or (dict_keys recs) [-1]) >? offset c); simpl.
  - rewrite (get_last_offset_run (topic c) (partition c) _ t recs)
      by assumption.
    simpl. unfold write. simpl. rewrite <- app_assoc. simpl.
    destruct (_ <=? _); simpl; [|reflexivity].
    rewrite (read_message_run (topic c) (partition c) _ _ t) by assumption.
    simpl. now rewrite Hr.
  - rewrite (get_last_offset_run _ _ _ _ _ Ht Hr). simpl.
    destruct (_ <=? _); simpl; [|now destruct c].
    now rewrite (read_message_run _ _ _ _ _ Ht), Hr.
Qed.

(** A poll leaves the broker as it is; it may only print. *)
Lemma get_next_message_world c w :
  exists out, snd (snd (get_next_message (c, w))) = write out w.
Proof.
  destruct (records_of w (topic c) (partition c)) as [recs|] eqn:Hr.
  - rewrite (get_next_message_run _ _ _ Hr). cbv zeta. unfold skip_ahead. simpl.
    destruct (_ >? _); simpl; destruct (_ <=? _); simpl;
      first [now eexists | exists []; now rewrite write_nil].
  - rewrite (get_next_message_unbound _ _ Hr). exists []. simpl.
    now rewrite write_nil.
Qed.

Theorem reachable_world_inv w : reachable w -> world_inv w.
Proof.
  induction 1 as [clock|w c Hw IH].
  - apply world_inv_boot.
  - destruct c as [name n r|tn m k|tn p off| |c]; simpl.
    + now apply world_inv_create_topic.
    + now apply world_inv_send_message.
    + now rewrite read_message_world.
    + now apply world_inv_vacuum.
    + destruct (get_next_message_world c w) as [out ->].
      now apply world_inv_write.
Qed.

(** ** Reachable worlds *)

Lemma reachable_run_calls cs : forall w, reachable w -> reachable (run_calls cs w).
Proof.
  induction cs as [|c cs IH]; intros w Hw; [assumption|].
  apply IH. now constructor.
Qed.

Lemma reachable_world_a : reachable world_a.
Proof. apply reachable_run_calls. constructor. Qed.

Lemma reachable_world_gap : reachable world_gap.
Proof. apply reachable_run_calls. constructor. Qed.

Lemma reachable_world_two : reachable world_two.
Proof. apply reachable_run_calls. constructor. Qed.

Lemma reachable_topic_inv w tn t :
  reachable w -> dict_get tn (topics w) = Some t ->
  topic_inv (clock w) (ticks w) t.
Proof.
  intros Hw Ht. destruct (reachable_world_inv w Hw) as [_ Hall].
  exact (Forall_dict_get (topic_inv (clock w) (ticks w)) _ _ _ Hall Ht).
Qed.

Lemma reachable_records_inv w tn p recs :
  reachable w -> records_of w tn p = Some recs ->
  records_inv (clock w) (ticks w) recs.
Proof.
  unfold records_of. intros Hw Hr.
  destruct (dict_get tn (topics w)) as [t|] eqn:Ht; [|discriminate].
  destruct (reachable_topic_inv w tn t Hw Ht) as [_ Hall].
  exact (Forall_dict_get (records_inv (clock w) (ticks w)) _ _ _ Hall Hr).
Qed.

(** In a reachable world the partitions of a topic are those of [range]. *)
Lemma partition_exists w tn t p :
  reachable w -> dict_get tn (topics w) = Some t ->
  (0 <= p < num_partitions t <-> dict_get p (partitions t) <> None).
Proof.
  intros Hw Ht. destruct (reachable_topic_inv w tn t Hw Ht) as [Hk _].
  rewrite <- In_range, <- Hk. split.
  - intros Hin Hnone. now apply dict_get_None in Hnone.
  - intros Hsome. destruct (in_dec Z.eq_dec p (dict_keys (partitions t)));
      [assumption|]. exfalso. apply Hsome. now apply dict_get_None.
Qed.

Lemma route_range n k m : 0 < n -> 0 <= route n k m < n.
Proof. intros Hn. unfold route. now apply Z.mod_pos_bound. Qed.

(** ** Claims about 03_retention.py *)

(** C3, the claim as stated fails: creating ["t"] a second time returns
    normally, and the record that ["t"] held is gone. *)
Lemma C3_counterexample :
  dict_get "t"%string (topics world_a) <> None /\
  fst (read_message "t" 0 0 world_a) = Returned (VStr "a") /\
  fst (create_topic "t" 1 5 world_a) = Returned VNone /\
  fst (read_message "t" 0 0 (snd (create_topic "t" 1 5 world_a))) = Returned VNone.
Proof. vm_compute. repeat split; congruence. Qed.

(** C3, amended: [create_topic] never fails; whether or not [name] is
    registered, [name] is afterwards bound to a fresh, empty topic with the
    given partition count and retention, and no other topic changes. *)
Theorem C3_create_topic_replaces (w : World) (name : string) (n r : Z) :
  fst (create_topic name n r w) = Returned VNone /\
  dict_get name (topics (snd (create_topic name n r w))) = Some (Topic_init n r) /\
  (forall p recs, dict_get p (partitions (Topic_init n r)) = Some recs -> recs = []) /\
  (forall other, other <> name ->
     dict_get other (topics (snd (create_topic name n r w)))
     = dict_get other (topics w)).
Proof.
  rewrite create_topic_run. simpl. repeat split.
  - apply dict_get_set_same.
  - intros p recs Hp. apply dict_get_In in Hp. apply in_map_iff in Hp.
    destruct Hp as (i & [= _ <-] & _). reflexivity.
  - intros other Hne. apply dict_get_set_other. congruence.
Qed.

(** C7, the claim as stated fails: partition 7 of a topic of two partitions
    reads as [None], like an offset that was never assigned. *)
Lemma C7_counterexample :
  dict_get "t"%string (topics world_two) <> None /\
  fst (read_message "t" 7 0 world_two) = Returned VNone /\
  fst (read_message "t" 0 0 world_two) = Returned VNone.
Proof. vm_compute. repeat split; congruence. Qed.

(** C7, amended: for an existing topic, [read_message] with a partition
    index outside [0, num_partitions) returns [None] and changes nothing,
    which is also what it returns for an offset that is not stored; only an
    unknown topic name raises (KeyError). *)
Theorem C7_invalid_partition_reads_None (w : World) (tn : string) (t : Topic)
    (p off : Z) :
  reachable w ->
  dict_get tn (topics w) = Some t ->
  ~ (0 <= p < num_partitions t) ->
  read_message tn p off w = (Returned VNone, w) /\
  (forall p' recs, dict_get p' (partitions t) = Some recs ->
     dict_get off recs = None ->
     read_message tn p' off w = (Returned VNone, w)) /\
  (forall tn', dict_get tn' (topics w) = None ->
     read_message tn' p off w = (Raised KeyError, w)).
Proof.
  intros Hw Ht Hp. repeat split.
  - rewrite (read_message_run _ _ _ _ _ Ht).
    destruct (dict_get p (partitions t)) as [recs|] eqn:E; [|reflexivity].
    exfalso. apply Hp. apply (partition_exists w tn t p Hw Ht). congruence.
  - intros p' recs Hp' Hoff. rewrite (read_message_run _ _ _ _ _ Ht), Hp'.
    now rewrite Hoff.
  - intros tn' Hn. now apply read_message_unknown_topic.
Qed.

Lemma C7_witness :
  read_message "t" 7 0 world_two = (Returned VNone, world_two) /\
  (forall p' recs,
     dict_get p' (partitions (Topic_init 2 10)) = Some recs ->
     dict_get 0 recs = None ->
     read_message "t" p' 0 world_two = (Returned VNone, world_two)) /\
  (forall tn', dict_get tn' (topics world_two) = None ->
     read_message tn' 7 0 world_two = (Raised KeyError, world_two)).
Proof.
  apply (C7_invalid_partition_reads_None world_two "t" (Topic_init 2 10) 7 0).
  - exact reachable_world_two.
  - reflexivity.
  - simpl. lia.
Defined.

(** What a successful [send_message] leaves in the partition it chose. *)
Lemma send_message_stores w tn t m k :
  reachable w ->
  dict_get tn (topics w) = Some t ->
  0 < num_partitions t ->
  exists recs,
    records_of w tn (route (num_partitions t) k m) = Some recs /\
    fst (send_message tn m k w) = Returned VNone /\
    ticks (snd (send_message tn m k w)) = S (ticks w) /\
    dict_get tn (topics (snd (send_message tn m k w)))
    = Some (stored t (route (num_partitions t) k m)
                   (last (list_or (dict_keys recs) [-1]) 0 + 1)
                   (mkRecord (clock_now w) (encode_utf8 (key_or k m)) m) recs) /\
    records_of (snd (send_message tn m k w)) tn (route (num_partitions t) k m)
    = Some (recs ++ [(last (list_or (dict_keys recs) [-1]) 0 + 1,
                      mkRecord (clock_now w) (encode_utf8 (key_or k m)) m)]) /\
    (forall p', p' <> route (num_partitions t) k m ->
       records_of (snd (send_message tn m k w)) tn p' = records_of w tn p') /\
    (forall tn' p', tn' <> tn ->
       records_of (snd (send_message tn m k w)) tn' p' = records_of w tn' p').
Proof.
  intros Hw Ht Hn. set (p := route (num_partitions t) k m).
  destruct (dict_get p (partitions t)) as [recs|] eqn:Hp.
  2: { exfalso. pose proof (route_range (num_partitions t) k m Hn) as Hr.
       apply (partition_exists w tn t p Hw Ht) in Hr. contradiction. }
  exists recs. assert (Hnz : num_partitions t <> 0) by lia.
  rewrite (send_message_run _ _ _ _ _ _ Ht Hnz Hp). fold p.
  unfold records_of. simpl. rewrite Ht, dict_get_set_same. simpl.
  rewrite dict_get_set_same.
  destruct (reachable_topic_inv w tn t Hw Ht) as [_ Hall].
  destruct (Forall_dict_get (records_inv (clock w) (ticks w)) _ _ _ Hall Hp)
    as [Hs _].
  rewrite next_offset_append by assumption.
  repeat split; try assumption.
  - intros p' Hp'. apply dict_get_set_other. congruence.
  - intros tn' p' Htn. rewrite dict_get_set_other by congruence. reflexivity.
Qed.

Lemma dict_get_snoc_same {V : Type} (k : Z) (v : V) (d : dict Z V) :
  ~ In k (dict_keys d) -> dict_get k (d ++ [(k, v)]) = Some v.
Proof.
  intros Hn. rewrite dict_get_app_r by assumption. simpl.
  now rewrite Z.eqb_refl.
Qed.

Lemma next_offset_not_in (recs : dict Z Record_) :
  StronglySorted Z.lt (dict_keys recs) ->
  ~ In (last (list_or (dict_keys recs) [-1]) 0 + 1) (dict_keys recs).
Proof.
  intros Hs Hin. pose proof (next_offset_fresh recs Hs) as Hall.
  rewrite Forall_forall in Hall. specialize (Hall _ Hin). lia.
Qed.

(** C2, the claim as stated fails: the message lands in partition 0 at
    offset 0, and the call returns [None], not the pair [(0, 0)]. *)
Lemma C2_counterexample :
  fst (send_message "t" "a" None world_two) = Returned VNone /\
  fst (read_message "t" 0 0 (snd (send_message "t" "a" None world_two)))
  = Returned (VStr "a") /\
  fst (send_message "t" "a" None world_two) <> Returned (VTuple (VInt 0) (VInt 0)).
Proof. vm_compute. repeat split; congruence. Qed.

(** C2, amended: for every existing topic (with at least one partition),
    [send_message] returns [None]; the message lands in partition
    [sha1(key or message) mod num_partitions] at the offset next to
    [get_last_offset], where [read_message] finds it afterwards. *)
Theorem C2_send_message_returns_None (w : World) (tn : string) (t : Topic)
    (m : string) (k : option string) :
  reachable w ->
  dict_get tn (topics w) = Some t ->
  0 < num_partitions t ->
  exists newest : Z,
    get_last_offset tn (route (num_partitions t) k m) w = (Returned newest, w) /\
    fst (send_message tn m k w) = Returned VNone /\
    fst (read_message tn (route (num_partitions t) k m) (newest + 1)
                      (snd (send_message tn m k w)))
    = Returned (VStr m).
Proof.
  intros Hw Ht Hn.
  destruct (send_message_stores w tn t m k Hw Ht Hn)
    as (recs & Hr & Hret & _ & Ht' & Hr' & _).
  exists (last (list_or (dict_keys recs) [-1]) 0).
  unfold records_of in Hr, Hr'. rewrite Ht in Hr. rewrite Ht' in Hr'.
  repeat split; [|assumption|].
  - now apply (get_last_offset_run _ _ _ t).
  - rewrite (read_message_run _ _ _ _ _ Ht'), Hr'.
    rewrite dict_get_snoc_same; [reflexivity|].
    apply next_offset_not_in.
    pose proof (reachable_records_inv w tn (route (num_partitions t) k m) recs Hw)
      as Hinv.
    unfold records_of in Hinv. rewrite Ht in Hinv. now destruct (Hinv Hr).
Qed.

Lemma C2_witness :
  exists newest : Z,
    get_last_offset "t" (route 1 None "c") world_a = (Returned newest, world_a) /\
    fst (send_message "t" "c" None world_a) = Returned VNone /\
    fst (read_message "t" (route 1 None "c") (newest + 1)
                      (snd (send_message "t" "c" None world_a)))
    = Returned (VStr "c").
Proof.
  apply (C2_send_message_returns_None world_a "t"
           (mkTopic 1 5 [(0, [(0, mkRecord 0 (encode_utf8 "a") "a")])]) "c" None).
  - exact reachable_world_a.
  - vm_compute. reflexivity.
  - simpl. lia.
Defined.

Lemma reachable_world_behind : reachable world_behind.
Proof. apply reachable_run_calls. constructor. Qed.

(** C4: a consumer whose cursor is below the oldest live offset of its
    (non-empty) partition, that is below the offset [get_first_offset]
    returns, which is live and is the least of the live offsets, reports the
    gap, moves its cursor to that offset, reads there, returns what
    [read_message] gives for the record stored at that offset (its message),
    and ends one past it. *)
Theorem C4_behind_consumer_skips_to_oldest (w : World) (c : Consumer)
    (recs : dict Z Record_) (oldest : Z) :
  reachable w ->
  records_of w (topic c) (partition c) = Some recs ->
  recs <> [] ->
  get_first_offset (topic c) (partition c) w = (Returned oldest, w) ->
  offset c < oldest ->
  In oldest (dict_keys recs) /\
  (forall off, In off (dict_keys recs) -> oldest <= off) /\
  exists rec : Record_,
    dict_get oldest recs = Some rec /\
    read_message (topic c) (partition c) oldest w
    = (Returned (VStr (message rec)), w) /\
    get_next_message (c, w)
    = (Returned (VStr (message rec)),
       (mkConsumer (topic c) (partition c) (oldest + 1),
        write [Missed_some_messages (partition c); Skipping_ahead oldest] w)).
Proof.
  intros Hw Hr Hne Hfirst Hlt.
  pose proof (reachable_records_inv _ _ _ _ Hw Hr) as [Hs _].
  rewrite (get_next_message_run _ _ _ Hr). cbv zeta.
  unfold records_of in Hr.
  destruct (dict_get (topic c) (topics w)) as [t|] eqn:Ht; [|discriminate].
  rewrite (get_first_offset_run _ _ _ _ _ Ht Hr) in Hfirst.
  injection Hfirst as Hold.
  destruct recs as [|[o rec] recs]; [contradiction|]. simpl in Hold. subst o.
  split; [now left|]. split.
  { intros off [<-|Hin]; [simpl; lia|].
    inversion Hs as [|? ? _ Hall]; subst.
    rewrite Forall_forall in Hall. specialize (Hall off Hin). lia. }
  exists rec. split; [simpl; now rewrite Z.eqb_refl|]. split.
  - rewrite (read_message_run _ _ _ _ _ Ht), Hr. simpl. now rewrite Z.eqb_refl.
  - unfold skip_ahead. simpl fst. simpl snd.
    change (list_or (dict_keys ((oldest, rec) :: recs)) [-1])
      with (dict_keys ((oldest, rec) :: recs)).
    change (hd 0 (dict_keys ((oldest, rec) :: recs))) with oldest.
    replace (oldest >? offset c) with true by (symmetry; apply Z.gtb_lt; lia).
    simpl fst. simpl snd. simpl offset.
    pose proof (sorted_hd_le_last _ 0 0 Hs ltac:(discriminate)) as Hle.
    change (hd 0 (dict_keys ((oldest, rec) :: recs))) with oldest in Hle.
    replace (oldest <=? last (dict_keys ((oldest, rec) :: recs)) 0) with true
      by (symmetry; apply Z.leb_le; exact Hle).
    simpl dict_get. now rewrite Z.eqb_refl.
Qed.

Lemma C4_witness :
  let recs := [(1, mkRecord 10 (encode_utf8 "b") "b");
               (2, mkRecord 20 (encode_utf8 "c") "c")] in
  In 1 (dict_keys recs) /\
  (forall off, In off (dict_keys recs) -> 1 <= off) /\
  exists rec : Record_,
    dict_get 1 recs = Some rec /\
    read_message "t" 0 1 world_behind
    = (Returned (VStr (message rec)), world_behind) /\
    get_next_message (mkConsumer "t" 0 0, world_behind)
    = (Returned (VStr (message rec)),
       (mkConsumer "t" 0 (1 + 1),
        write [Missed_some_messages 0; Skipping_ahead 1] world_behind)).
Proof.
  apply (C4_behind_consumer_skips_to_oldest world_behind (mkConsumer "t" 0 0)
           [(1, mkRecord 10 (encode_utf8 "b") "b");
            (2, mkRecord 20 (encode_utf8 "c") "c")] 1).
  - exact reachable_world_behind.
  - vm_compute. reflexivity.
  - discriminate.
  - vm_compute. reflexivity.
  - simpl. lia.
Defined.

(** C5: a consumer whose cursor is above the newest live offset gets [None]
    from a poll, which changes neither its cursor nor the world (nothing is
    printed: no gap is reported), so any number of polls in a row all return
    [None]; on an empty partition both offsets are the sentinel -1, below the
    cursor 0 of a fresh consumer. *)
Theorem C5_caught_up_poll_changes_nothing (w : World) (c : Consumer)
    (recs : dict Z Record_) (newest : Z) (n : nat) :
  reachable w ->
  records_of w (topic c) (partition c) = Some recs ->
  get_last_offset (topic c) (partition c) w = (Returned newest, w) ->
  newest < offset c ->
  get_next_message (c, w) = (Returned VNone, (c, w)) /\
  poll_n n (c, w) = (repeat (Returned VNone) n, (c, w)) /\
  (recs = [] ->
   newest = -1 /\
   get_first_offset (topic c) (partition c) w = (Returned (-1), w) /\
   newest < offset (Consumer_init (topic c) (partition c))).
Proof.
  intros Hw Hr Hlast Hlt.
  pose proof (reachable_records_inv _ _ _ _ Hw Hr) as [Hs _].
  assert (Hpoll : get_next_message (c, w) = (Returned VNone, (c, w))).
  { rewrite (get_next_message_run _ _ _ Hr). cbv zeta.
    unfold records_of in Hr.
    destruct (dict_get (topic c) (topics w)) as [t|] eqn:Ht; [|discriminate].
    rewrite (get_last_offset_run _ _ _ _ _ Ht Hr) in Hlast.
    injection Hlast as Hnew. rewrite Hnew.
    assert (Hold : hd 0 (list_or (dict_keys recs) [-1]) <= newest).
    { rewrite <- Hnew. destruct (dict_keys recs) as [|k ks] eqn:E; [simpl; lia|].
      change (list_or (k :: ks) [-1]) with (k :: ks).
      apply sorted_hd_le_last; [assumption|discriminate]. }
    unfold skip_ahead. simpl fst.
    replace (_ >? offset c) with false
      by (symmetry; rewrite Z.gtb_ltb; apply Z.ltb_ge; lia).
    simpl fst.
    now replace (offset c <=? newest) with false by (symmetry; apply Z.leb_gt; lia). }
  repeat split.
  - exact Hpoll.
  - induction n as [|n IH]; [reflexivity|]. simpl. now rewrite Hpoll, IH.
  - subst recs. unfold records_of in Hr.
    destruct (dict_get (topic c) (topics w)) as [t|] eqn:Ht; [|discriminate].
    rewrite (get_last_offset_run _ _ _ _ _ Ht Hr) in Hlast.
    now injection Hlast as <-.
  - subst recs. unfold records_of in Hr.
    destruct (dict_get (topic c) (topics w)) as [t|] eqn:Ht; [|discriminate].
    now rewrite (get_first_offset_run _ _ _ _ _ Ht Hr).
  - subst recs. unfold records_of in Hr.
    destruct (dict_get (topic c) (topics w)) as [t|] eqn:Ht; [|discriminate].
    rewrite (get_last_offset_run _ _ _ _ _ Ht Hr) in Hlast.
    injection Hlast as <-. simpl. lia.
Qed.

Lemma C5_witness :
  get_next_message (Consumer_init "t" 1, world_two)
  = (Returned VNone, (Consumer_init "t" 1, world_two)) /\
  poll_n 3 (Consumer_init "t" 1, world_two)
  = (repeat (Returned VNone) 3, (Consumer_init "t" 1, world_two)) /\
  (@nil (Z * Record_) = [] ->
   -1 = -1 /\
   get_first_offset "t" 1 world_two = (Returned (-1), world_two) /\
   -1 < offset (Consumer_init "t" 1)).
Proof.
  apply (C5_caught_up_poll_changes_nothing world_two (Consumer_init "t" 1)
           [] (-1) 3).
  - exact reachable_world_two.
  - vm_compute. reflexivity.
  - vm_compute. reflexivity.
  - simpl. lia.
Defined.

(** C8, the code at the failing input: two sends with the same key, the
    empty string, to a topic of two partitions. [key or message] takes the
    message when the key is empty, so ["a"] is stored in partition 0 and
    ["e"] in partition 1 (each at offset 0, and nothing at offset 1 of
    partition 0). *)
Theorem C8_empty_key_is_routed_by_the_message :
  let w1 := snd (send_message "t" "a" (Some ""%string) world_two) in
  let w2 := snd (send_message "t" "e" (Some ""%string) w1) in
  fst (read_message "t" 0 0 w2) = Returned (VStr "a") /\
  fst (read_message "t" 1 0 w2) = Returned (VStr "e") /\
  fst (read_message "t" 0 1 w2) = Returned VNone.
Proof. vm_compute. repeat split; reflexivity. Qed.

(** X17: a send with a key that is not the empty string goes to partition
    [sha1(key) mod num_partitions], which lies in [0, num_partitions) and
    depends on neither the message nor what the broker holds: the record,
    carrying the message and the encoded key, is appended to that partition
    and every other partition stays as it was. *)
Theorem nonempty_key_decides_the_partition (w : World) (tn : string) (t : Topic)
    (m k : string) :
  reachable w ->
  dict_get tn (topics w) = Some t ->
  0 < num_partitions t ->
  k <> ""%string ->
  let p := Sha1.digest_int (encode_utf8 k) mod num_partitions t in
  0 <= p < num_partitions t /\
  (exists recs rec,
     records_of w tn p = Some recs /\
     message rec = m /\
     key rec = encode_utf8 k /\
     records_of (snd (send_message tn m (Some k) w)) tn p
     = Some (recs ++ [(last (list_or (dict_keys recs) [-1]) 0 + 1, rec)])) /\
  (forall p', p' <> p ->
     records_of (snd (send_message tn m (Some k) w)) tn p' = records_of w tn p').
Proof.
  intros Hw Ht Hn Hk p.
  assert (Hrk : key_or (Some k) m = k).
  { unfold key_or. destruct k; [contradiction|reflexivity]. }
  assert (Hp : p = route (num_partitions t) (Some k) m).
  { unfold p, route. now rewrite Hrk. }
  destruct (send_message_stores w tn t m (Some k) Hw Ht Hn)
    as (recs & Hr & _ & _ & _ & Hr' & Hother & _).
  rewrite Hp. split; [now apply route_range|]. split; [|exact Hother].
  exists recs, (mkRecord (clock_now w) (encode_utf8 (key_or (Some k) m)) m).
  repeat split; try assumption. cbn [key]. now rewrite Hrk.
Qed.

Lemma nonempty_key_decides_the_partition_witness :
  let p := Sha1.digest_int (encode_utf8 "Todd") mod 2 in
  0 <= p < 2 /\
  (exists recs rec,
     records_of world_two "t" p = Some recs /\
     message rec = "x"%string /\
     key rec = encode_utf8 "Todd" /\
     records_of (snd (send_message "t" "x" (Some "Todd"%string) world_two)) "t" p
     = Some (recs ++ [(last (list_or (dict_keys recs) [-1]) 0 + 1, rec)])) /\
  (forall p', p' <> p ->
     records_of (snd (send_message "t" "x" (Some "Todd"%string) world_two)) "t" p'
     = records_of world_two "t" p').
Proof.
  apply (nonempty_key_decides_the_partition world_two "t" (Topic_init 2 10)
           "x" "Todd").
  - exact reachable_world_two.
  - reflexivity.
  - simpl. lia.
  - discriminate.
Defined.

(** C1, the code at the failing input: ["a"] is appended at offset 0 of
    partition 0; a vacuum past its retention empties the partition, after
    which [get_last_offset] is back to -1; the next append, ["b"], is given
    offset 0 again. *)
Theorem C1_offset_reused_after_full_eviction :
  fst (get_last_offset "t" 0 world_a) = Returned 0 /\
  fst (read_message "t" 0 0 world_a) = Returned (VStr "a") /\
  fst (get_last_offset "t" 0 (snd (Broker_vacuum world_a))) = Returned (-1) /\
  fst (get_last_offset "t" 0 world_b) = Returned 0 /\
  fst (read_message "t" 0 0 world_b) = Returned (VStr "b").
Proof. vm_compute. repeat split; reflexivity. Qed.

(** ** Vacuum, seen from the broker *)

Lemma dict_get_filter {V : Type} (f : Z * V -> bool) (k : Z) (d : dict Z V) :
  NoDup (dict_keys d) ->
  dict_get k (filter f d)
  = match dict_get k d with
    | Some v => if f (k, v) then Some v else None
    | None => None
    end.
Proof.
  induction d as [|[k' v'] d IH]; simpl; intros Hnd; [reflexivity|].
  inversion Hnd as [|? ? Hn Hnd']; subst.
  destruct (Z.eqb_spec k k') as [->|Hne].
  - destruct (f (k', v')) eqn:E; simpl; [now rewrite Z.eqb_refl|].
    rewrite (IH Hnd').
    replace (dict_get k' d) with (@None V); [reflexivity|].
    symmetry. now apply dict_get_None.
  - destruct (f (k', v')); simpl; [|auto].
    destruct (Z.eqb_spec k k'); [contradiction|auto].
Qed.

Lemma dict_get_vacuumed_partition r now p (parts : dict Z (dict Z Record_)) :
  dict_get p (map (vacuumed_partition r now) parts)
  = option_map (filter (live r now)) (dict_get p parts).
Proof.
  induction parts as [|[p' recs] parts IH]; simpl; [reflexivity|].
  destruct (p =? p'); [reflexivity|exact IH].
Qed.

Lemma dict_get_vacuumed_topics clock tn t items : forall n : nat,
  dict_get tn items = Some t ->
  exists i : nat,
    (i < length items)%nat /\
    dict_get tn (vacuumed_topics clock n items)
    = Some (vacuumed_topic (clock (n + i)%nat) t).
Proof.
  induction items as [|[name t'] items IH]; intros n; simpl; [discriminate|].
  destruct (String.eqb tn name).
  - intros [= ->]. exists O. split; [lia|]. now rewrite Nat.add_0_r.
  - intros Hg. destruct (IH (S n) Hg) as (i & Hi & Hget). exists (S i).
    split; [lia|]. now rewrite Nat.add_succ_r.
Qed.

(** After [Broker.vacuum] a partition holds the records that were live at
    the reading of the clock made for its topic. *)
Lemma records_of_vacuum w tn t p recs :
  reachable w ->
  dict_get tn (topics w) = Some t ->
  dict_get p (partitions t) = Some recs ->
  exists i : nat,
    (i < length (topics w))%nat /\
    ticks (snd (Broker_vacuum w)) = (ticks w + length (topics w))%nat /\
    clock (snd (Broker_vacuum w)) = clock w /\
    dict_get tn (topics (snd (Broker_vacuum w)))
    = Some (vacuumed_topic (clock w (ticks w + i)%nat) t) /\
    records_of (snd (Broker_vacuum w)) tn p
    = Some (filter (live (retention_seconds t) (clock w (ticks w + i)%nat)) recs).
Proof.
  intros Hw Ht Hp.
  destruct (Broker_vacuum_run w (reachable_world_inv w Hw)) as [out ->].
  destruct (dict_get_vacuumed_topics (clock w) tn t (topics w) (ticks w) Ht)
    as (i & Hi & Hget).
  exists i. unfold records_of. simpl. rewrite Hget. simpl.
  rewrite dict_get_vacuumed_partition, Hp. simpl. repeat split. exact Hi.
Qed.

(** C10: if the clock never goes back, then in every world reachable from
    a fresh broker the records of a partition have timestamps that do not
    decrease along the offsets, and the live offsets are an interval of
    integers; a vacuum then removes a prefix of the records. *)
Theorem C10_live_offsets_contiguous (w : World) (tn : string) (p : Z)
    (recs : dict Z Record_) :
  reachable w ->
  monotone (clock w) ->
  records_of w tn p = Some recs ->
  StronglySorted Z.le (timestamps recs) /\
  dict_keys recs = interval (hd 0 (dict_keys recs)) (length recs) /\
  exists k : nat, records_of (snd (Broker_vacuum w)) tn p = Some (skipn k recs).
Proof.
  intros Hw Hmono Hr.
  destruct (reachable_records_inv w tn p recs Hw Hr) as [_ Hm].
  destruct (Hm Hmono) as (Hc & Hts & _).
  split; [assumption|]. split.
  - rewrite (consecutive_interval _ Hc) at 1. unfold dict_keys.
    now rewrite length_map.
  - unfold records_of in Hr.
    destruct (dict_get tn (topics w)) as [t|] eqn:Ht; [|discriminate].
    destruct (records_of_vacuum w tn t p recs Hw Ht Hr)
      as (i & _ & _ & _ & _ & Hr').
    destruct (filter_live_skipn (retention_seconds t)
                (clock w (ticks w + i)%nat) recs Hts) as [k Hk].
    exists k. now rewrite Hr', Hk.
Qed.

Lemma monotone_clock10 : monotone clock10.
Proof. intros i. unfold clock10. lia. Qed.

Lemma reachable_world_three : reachable world_three.
Proof. apply reachable_run_calls. constructor. Qed.

Lemma C10_witness :
  let recs := [(0, mkRecord 0 (encode_utf8 "a") "a");
               (1, mkRecord 10 (encode_utf8 "b") "b");
               (2, mkRecord 20 (encode_utf8 "c") "c")] in
  StronglySorted Z.le (timestamps recs) /\
  dict_keys recs = interval (hd 0 (dict_keys recs)) (length recs) /\
  exists k : nat,
    records_of (snd (Broker_vacuum world_three)) "t" 0 = Some (skipn k recs).
Proof.
  apply (C10_live_offsets_contiguous world_three "t" 0).
  - exact reachable_world_three.
  - exact monotone_clock10.
  - vm_compute. reflexivity.
Defined.

(** ** A record through the calls that follow its append *)

Lemma send_message_cases tn m k w :
  snd (send_message tn m k w) = w \/
  snd (send_message tn m k w) = tick w \/
  exists t recs,
    dict_get tn (topics w) = Some t /\
    dict_get (route (num_partitions t) k m) (partitions t) = Some recs /\
    snd (send_message tn m k w)
    = set_topics
        (dict_set tn
           (stored t (route (num_partitions t) k m)
                   (last (list_or (dict_keys recs) [-1]) 0 + 1)
                   (mkRecord (clock_now w) (encode_utf8 (key_or k m)) m) recs))
        (tick w).
Proof.
  destruct (dict_get tn (topics w)) as [t|] eqn:Ht.
  2: { left. now rewrite send_message_unknown_topic. }
  destruct (Z.eq_dec (num_partitions t) 0) as [Hz|Hnz].
  { left. now rewrite (send_message_no_partitions _ _ _ _ _ Ht Hz). }
  destruct (dict_get (route (num_partitions t) k m) (partitions t)) as [recs|] eqn:Hp.
  2: { right. left. now rewrite (send_message_no_partition _ _ _ _ _ Ht Hnz Hp). }
  right. right. exists t, recs.
  now rewrite (send_message_run _ _ _ _ _ _ Ht Hnz Hp).
Qed.

Lemma run_call_clock_ticks c w :
  reachable w ->
  clock (run_call c w) = clock w /\ (ticks w <= ticks (run_call c w))%nat.
Proof.
  intros Hw. destruct c as [name n r|tn m k|tn p off| |c]; simpl.
  - split; [reflexivity|lia].
  - destruct (send_message_cases tn m k w) as [->|[->|(t & recs & _ & _ & ->)]];
      simpl; split; auto; lia.
  - rewrite read_message_world. split; [reflexivity|lia].
  - destruct (Broker_vacuum_run w (reachable_world_inv w Hw)) as [out ->].
    simpl. split; [reflexivity|lia].
  - destruct (get_next_message_world c w) as [out ->]. simpl.
    split; [reflexivity|lia].
Qed.

Lemma run_calls_clock_ticks cs : forall w,
  reachable w ->
  clock (run_calls cs w) = clock w /\ (ticks w <= ticks (run_calls cs w))%nat.
Proof.
  induction cs as [|c cs IH]; intros w Hw; simpl; [split; [reflexivity|lia]|].
  destruct (run_call_clock_ticks c w Hw) as [Hc Ht].
  destruct (IH (run_call c w) (reach_call w c Hw)) as [Hc' Ht'].
  split; [congruence|lia].
Qed.

(** A call other than a re-creation of the topic keeps the record, provided
    no reading of the clock made by the call is past [timestamp + R]. *)
Lemma run_call_keeps_record c w tn R p off rec :
  reachable w ->
  keeps_topic tn c ->
  (forall i : nat, (ticks w <= i < ticks (run_call c w))%nat ->
     clock w i <= timestamp rec + R) ->
  holds_record w tn R p off rec ->
  holds_record (run_call c w) tn R p off rec.
Proof.
  intros Hw Hkeep Hclock Hrec.
  destruct c as [name n r|tn' m k|tn' p' off'| |c]; simpl in *.
  - destruct Hrec as (t & recs & Ht & HR & Hp & Hoff).
    exists t, recs. unfold set_topics. simpl.
    rewrite dict_get_set_other by assumption. auto.
  - destruct (send_message_cases tn' m k w)
      as [->|[->|(t' & recs' & Ht' & Hp' & ->)]];
      [assumption|exact Hrec|].
    destruct Hrec as (t & recs & Ht & HR & Hp & Hoff).
    destruct (string_dec tn' tn) as [->|Hne].
    2: { exists t, recs. repeat split; try assumption. simpl.
         now rewrite dict_get_set_other. }
    rewrite Ht in Ht'. injection Ht' as <-.
    set (p' := route (num_partitions t) k m) in *.
    destruct (Z.eq_dec p' p) as [Hpp|Hpp].
    + rewrite Hpp in Hp'. rewrite Hp in Hp'. injection Hp' as <-.
      eexists. eexists. simpl. rewrite dict_get_set_same. split; [reflexivity|].
      split; [exact HR|]. simpl. rewrite Hpp, dict_get_set_same.
      split; [reflexivity|].
      rewrite dict_get_set_other; [assumption|].
      pose proof (Forall_dict_get (records_inv (clock w) (ticks w)) _ _ _
                    (proj2 (reachable_topic_inv w tn t Hw Ht)) Hp) as [Hs _].
      intros Heq. apply (next_offset_not_in recs Hs). rewrite Heq.
      apply dict_get_In in Hoff. change off with (fst (off, rec)).
      now apply in_map.
    + eexists. exists recs. simpl. rewrite dict_get_set_same.
      split; [reflexivity|]. split; [exact HR|]. simpl.
      rewrite dict_get_set_other by assumption. split; assumption.
  - now rewrite read_message_world.
  - destruct Hrec as (t & recs & Ht & HR & Hp & Hoff).
    destruct (records_of_vacuum w tn t p recs Hw Ht Hp)
      as (i & Hi & Hticks & _ & Ht' & Hr').
    unfold records_of in Hr'. rewrite Ht' in Hr'.
    eexists. eexists. split; [exact Ht'|]. split; [exact HR|].
    split; [exact Hr'|].
    pose proof (Forall_dict_get (records_inv (clock w) (ticks w)) _ _ _
                  (proj2 (reachable_topic_inv w tn t Hw Ht)) Hp) as [Hs _].
    rewrite dict_get_filter by (now apply StronglySorted_lt_NoDup).
    rewrite Hoff. unfold live. simpl.
    specialize (Hclock (ticks w + i)%nat). rewrite Hticks in Hclock.
    replace (timestamp rec + retention_seconds t <? clock w (ticks w + i)%nat)
      with false; [reflexivity|].
    symmetry. apply Z.ltb_ge. rewrite HR. apply Hclock. lia.
  - destruct (get_next_message_world c w) as [out ->]. exact Hrec.
Qed.

Lemma run_calls_keep_record cs tn R p off rec : forall w,
  reachable w ->
  Forall (keeps_topic tn) cs ->
  (forall i : nat, (ticks w <= i < ticks (run_calls cs w))%nat ->
     clock w i <= timestamp rec + R) ->
  holds_record w tn R p off rec ->
  holds_record (run_calls cs w) tn R p off rec.
Proof.
  induction cs as [|c cs IH]; intros w Hw Hkeep Hclock Hrec; [assumption|].
  inversion Hkeep as [|? ? Hc Hcs]; subst. simpl.
  pose proof (reach_call w c Hw) as Hw'.
  destruct (run_call_clock_ticks c w Hw) as [Hck Htk].
  destruct (run_calls_clock_ticks cs _ Hw') as [_ Htk'].
  apply IH; [assumption|assumption| |].
  - intros i Hi. rewrite Hck. apply Hclock. simpl. lia.
  - apply run_call_keeps_record; try assumption.
    intros i Hi. apply Hclock. simpl. lia.
Qed.

Lemma holds_record_read w tn R p off rec :
  holds_record w tn R p off rec ->
  read_message tn p off w = (Returned (VStr (message rec)), w).
Proof.
  intros (t & recs & Ht & _ & Hp & Hoff).
  now rewrite (read_message_run _ _ _ _ _ Ht), Hp, Hoff.
Qed.

Lemma reachable_world_empty : reachable world_empty.
Proof. apply reachable_run_calls. constructor. Qed.

Lemma reachable_world_sent : reachable world_sent.
Proof. apply reachable_run_calls. constructor. Qed.

(** C6, the code at the failing input: ["a"] is appended at time T = 0 to a
    topic of retention R = 5 and is read back at offset 0 of partition 0. A
    vacuum at time 10 evicts it, ["b"] is appended at time 20 and is given
    offset 0 again, and a second vacuum runs at time 22, after T + R, which
    keeps ["b"] (20 + 5 is not below 22). Reading where ["a"] was stored does
    not give [None] then: it gives ["b"]. *)
Theorem C6_evicted_offset_reads_a_later_record :
  fst (read_message "t" 0 0 world_sent) = Returned (VStr "a") /\
  records_of world_sent "t" 0 = Some [(0, mkRecord 0 (encode_utf8 "a") "a")] /\
  dict_get "t"%string (topics world_sent) = Some
    (mkTopic 1 5 [(0, [(0, mkRecord 0 (encode_utf8 "a") "a")])]) /\
  0 + 5 < clock world_sent 3 /\
  world_reused = run_calls [Vacuum; Send_message "t" "b" None; Vacuum] world_sent /\
  ticks world_reused = 4%nat /\
  fst (read_message "t" 0 0 world_reused) = Returned (VStr "b").
Proof. vm_compute. repeat split; reflexivity. Qed.

(** X16: [Topic.vacuum] removes from each partition exactly the records
    that pass the test of line 69, [timestamp + retention_seconds < now],
    and leaves the others at their offsets. A record appended at time T to a
    topic of retention R is read back by [read_message] after any calls (the
    topic not being created again) as long as no clock reading [now] made by
    them passes that test, [T + R < now], vacuums included; if a vacuum then
    runs whose readings all pass it, [read_message] returns [None] at that
    offset right after. *)
Theorem record_is_read_back_until_it_expires (w : World) (tn : string) (t : Topic) (m : string)
    (k : option string) (cs : list call) :
  reachable w ->
  dict_get tn (topics w) = Some t ->
  0 < num_partitions t ->
  Forall (keeps_topic tn) cs ->
  let T := clock_now w in
  let R := retention_seconds t in
  let p := route (num_partitions t) k m in
  let w1 := snd (send_message tn m k w) in
  let w2 := run_calls cs w1 in
  (forall w0 p' recs,
     dict_get p' (partitions t) = Some recs ->
     exists t' out recs',
       Topic_vacuum t w0 = (Returned t', write out (tick w0)) /\
       dict_get p' (partitions t') = Some recs' /\
       forall off,
         dict_get off recs'
         = match dict_get off recs with
           | Some rec =>
               if timestamp rec + R <? clock_now w0 then None else Some rec
           | None => None
           end) /\
  exists newest : Z,
    get_last_offset tn p w = (Returned newest, w) /\
    ((forall i : nat, (ticks w1 <= i < ticks w2)%nat -> clock w i <= T + R) ->
     fst (read_message tn p (newest + 1) w2) = Returned (VStr m) /\
     ((forall i : nat, (ticks w2 <= i < ticks w2 + length (topics w2))%nat ->
         T + R < clock w i) ->
      fst (read_message tn p (newest + 1) (snd (Broker_vacuum w2)))
      = Returned VNone)).
Proof.
  intros Hw Ht Hn Hkeep T R p w1 w2.
  pose proof (reachable_topic_inv w tn t Hw Ht) as Hinv. split.
  - intros w0 p' recs Hp'.
    destruct (Topic_vacuum_run _ _ _ w0 Hinv) as [out Hrun].
    exists (vacuumed_topic (clock_now w0) t), out, (filter (live R (clock_now w0)) recs).
    split; [exact Hrun|]. split.
    + simpl. now rewrite dict_get_vacuumed_partition, Hp'.
    + intros off. destruct Hinv as [_ Hall].
      destruct (Forall_dict_get (records_inv (clock w) (ticks w)) _ _ _ Hall Hp')
        as [Hs _].
      rewrite dict_get_filter by (now apply StronglySorted_lt_NoDup).
      destruct (dict_get off recs) as [rec|]; [|reflexivity].
      unfold live. simpl. now destruct (_ <? _).
  - destruct (send_message_stores w tn t m k Hw Ht Hn)
      as (recs & Hr & _ & _ & Ht1 & Hr1 & _).
    fold p in Hr, Ht1, Hr1. fold w1 in Ht1, Hr1.
    unfold records_of in Hr, Hr1. rewrite Ht in Hr. rewrite Ht1 in Hr1.
    exists (last (list_or (dict_keys recs) [-1]) 0).
    split; [now apply (get_last_offset_run _ _ _ t)|].
    set (off := last (list_or (dict_keys recs) [-1]) 0 + 1) in *.
    set (rec := mkRecord (clock_now w) (encode_utf8 (key_or k m)) m) in *.
    assert (Hw1 : reachable w1) by exact (reach_call w (Send_message tn m k) Hw).
    assert (Hck1 : clock w1 = clock w)
      by exact (proj1 (run_call_clock_ticks (Send_message tn m k) w Hw)).
    assert (Hrec1 : holds_record w1 tn R p off rec).
    { exists (stored t p off rec recs), (recs ++ [(off, rec)]).
      repeat split; try assumption.
      apply dict_get_snoc_same. apply next_offset_not_in.
      destruct Hinv as [_ Hall].
      now destruct (Forall_dict_get (records_inv (clock w) (ticks w)) _ _ _ Hall Hr). }
    intros Hbefore.
    assert (Hrec2 : holds_record w2 tn R p off rec).
    { apply run_calls_keep_record; try assumption.
      intros i Hi. rewrite Hck1. now apply Hbefore. }
    split; [now rewrite (holds_record_read _ _ _ _ _ _ Hrec2)|].
    intros Hafter.
    pose proof (reachable_run_calls cs w1 Hw1) as Hw2. fold w2 in Hw2.
    assert (Hck2 : clock w2 = clock w).
    { rewrite <- Hck1. exact (proj1 (run_calls_clock_ticks cs w1 Hw1)). }
    destruct Hrec2 as (t2 & recs2 & Ht2 & HR2 & Hp2 & Hoff2).
    destruct (records_of_vacuum w2 tn t2 p recs2 Hw2 Ht2 Hp2)
      as (i & Hi & _ & _ & Ht3 & Hr3).
    unfold records_of in Hr3. rewrite Ht3 in Hr3.
    rewrite (read_message_run _ _ _ _ _ Ht3), Hr3.
    pose proof (Forall_dict_get (records_inv (clock w2) (ticks w2)) _ _ _
                  (proj2 (reachable_topic_inv w2 tn t2 Hw2 Ht2)) Hp2) as [Hs _].
    rewrite dict_get_filter by (now apply StronglySorted_lt_NoDup).
    rewrite Hoff2. unfold live. simpl snd. rewrite HR2, Hck2.
    replace (timestamp rec + R <? clock w (ticks w2 + i)%nat) with true;
      [reflexivity|].
    symmetry. apply Z.ltb_lt. apply Hafter. lia.
Qed.

Lemma record_is_read_back_until_it_expires_witness :
  let w2 := run_calls [Send_message "t" "b" None]
                      (snd (send_message "t" "a" None world_empty)) in
  fst (read_message "t" 0 0 w2) = Returned (VStr "a") /\
  fst (read_message "t" 0 0 (snd (Broker_vacuum w2))) = Returned VNone.
Proof.
  destruct (record_is_read_back_until_it_expires world_empty "t" (Topic_init 1 15) "a" None
              [Send_message "t" "b" None])
    as [_ (newest & Hlast & Hread)].
  - exact reachable_world_empty.
  - reflexivity.
  - simpl. lia.
  - repeat constructor.
  - vm_compute in Hlast. injection Hlast as <-.
    destruct Hread as [Hbefore Hafter].
    + intros i Hi. vm_compute in Hi.
      assert (i = 1%nat) as -> by lia. vm_compute. discriminate.
    + split; [exact Hbefore|]. apply Hafter.
      intros i Hi. vm_compute in Hi.
      assert (i = 2%nat) as -> by lia. vm_compute. reflexivity.
Defined.

End RetentionFacts.


(** * Python list indexing *)

Lemma list_index_length {A : Type} (l : list A) :
  list_index l (Z.of_nat (length l)) = None.
Proof.
  unfold list_index.
  replace (0 <=? Z.of_nat (length l)) with true by (symmetry; apply Z.leb_le; lia).
  rewrite Nat2Z.id. apply nth_error_None. lia.
Qed.

Lemma list_index_middle {A : Type} (l l' : list A) (a : A) :
  list_index (l ++ a :: l') (Z.of_nat (length l)) = Some a.
Proof.
  unfold list_index.
  replace (0 <=? Z.of_nat (length l)) with true by (symmetry; apply Z.leb_le; lia).
  rewrite Nat2Z.id. rewrite nth_error_app2 by lia.
  now rewrite Nat.sub_diag.
Qed.

(** * 01_simple_kafka.py: the count as last offset *)

Module SimpleFacts.
Import Simple.

Ltac run_monad :=
  unfold bind, ret, gets, getitem, raise, modify, try_except; simpl.

Lemma simple_get_last_offset_run tn (b : Broker) msgs :
  dict_get tn b = Some msgs ->
  get_last_offset tn b = (Returned (Z.of_nat (length msgs)), b).
Proof. intros Hg. unfold get_last_offset. run_monad. now rewrite Hg. Qed.

Lemma simple_read_message_run tn off (b : Broker) :
  read_message tn off b
  = (Returned match dict_get tn b with
              | Some msgs =>
                  match list_index msgs off with
                  | Some m => VStr m
                  | None => VNone
                  end
              | None => VNone
              end, b).
Proof.
  unfold read_message. run_monad.
  destruct (dict_get tn b) as [msgs|]; simpl; [|reflexivity].
  now destruct (list_index msgs off).
Qed.

Lemma simple_read_message_found tn off (b : Broker) msgs :
  dict_get tn b = Some msgs ->
  read_message tn off b
  = (Returned match list_index msgs off with
              | Some m => VStr m
              | None => VNone
              end, b).
Proof. intros Hg. rewrite simple_read_message_run. now rewrite Hg. Qed.

Lemma simple_send_message_run tn m (b : Broker) msgs :
  dict_get tn b = Some msgs ->
  send_message tn m b = (Returned VNone, dict_set tn (msgs ++ [m]) b).
Proof. intros Hg. unfold send_message. run_monad. now rewrite Hg. Qed.

Lemma simple_send_message_unknown_topic tn m (b : Broker) :
  dict_get tn b = None -> send_message tn m b = (Raised KeyError, b).
Proof. intros Hg. unfold send_message. run_monad. now rewrite Hg. Qed.

Lemma simple_get_next_message_run c (b : Broker) msgs :
  dict_get (topic_name c) b = Some msgs ->
  get_next_message (c, b)
  = if offset c <=? Z.of_nat (length msgs) then
      (fst (read_message (topic_name c) (offset c) b),
       (mkConsumer (topic_name c) (offset c + 1), b))
    else (Returned VNone, (c, b)).
Proof.
  intros Hg. unfold get_next_message, self, broker_call. run_monad.
  rewrite (simple_get_last_offset_run _ _ _ Hg). simpl.
  destruct (_ <=? _); simpl; [|reflexivity].
  now rewrite simple_read_message_run.
Qed.

(** What stays true of a consumer that went past [count] and of the topic
    that got [m] at offset [count], whatever is sent or polled next. *)
Lemma simple_run_actions_skipped tn msgs m acts : forall c (b : Broker) extra,
  topic_name c = tn ->
  Z.of_nat (length msgs) < offset c ->
  dict_get tn b = Some (msgs ++ m :: extra) ->
  topic_name (fst (run_actions acts (c, b))) = tn /\
  Z.of_nat (length msgs) < offset (fst (run_actions acts (c, b))) /\
  exists extra',
    dict_get tn (snd (run_actions acts (c, b))) = Some (msgs ++ m :: extra').
Proof.
  induction acts as [|a acts IH]; intros c b extra Hc Hoff Hb.
  - simpl. eauto.
  - unfold run_actions. simpl. fold (run_actions acts).
    destruct a as [tn' m'|]; simpl.
    + destruct (dict_get tn' b) as [msgs'|] eqn:Hg'.
      * rewrite (simple_send_message_run _ _ _ _ Hg'). simpl.
        destruct (string_dec tn' tn) as [->|Hne].
        -- rewrite Hb in Hg'. injection Hg' as <-.
           apply (IH c _ (extra ++ [m'])); [assumption|assumption|].
           rewrite dict_get_set_same. now rewrite <- app_assoc.
        -- apply (IH c _ extra); [assumption|assumption|].
           now rewrite dict_get_set_other.
      * rewrite (simple_send_message_unknown_topic _ _ _ Hg'). simpl. eauto.
    + rewrite <- Hc in Hb. rewrite (simple_get_next_message_run _ _ _ Hb).
      rewrite Hc in Hb.
      destruct (_ <=? _); simpl.
      * apply (IH _ b extra); simpl; [assumption|lia|assumption].
      * apply (IH c b extra); assumption.
Qed.

Lemma simple_off_by_one tn msgs m acts (b : Broker) :
  dict_get tn b = Some msgs ->
  let count := Z.of_nat (length msgs) in
  let b1 := snd (send_message tn m b) in
  let s := run_actions acts (mkConsumer tn (count + 1), b1) in
  get_last_offset tn b = (Returned count, b) /\
  read_message tn count b = (Returned VNone, b) /\
  get_next_message (mkConsumer tn count, b)
  = (Returned VNone, (mkConsumer tn (count + 1), b)) /\
  fst (read_message tn count b1) = Returned (VStr m) /\
  fst (read_message tn count (snd s)) = Returned (VStr m) /\
  count < offset (fst s) /\
  (fst (get_next_message s) = Returned VNone \/
   fst (get_next_message s) = fst (read_message tn (offset (fst s)) (snd s))).
Proof.
  intros Hg count b1 s. subst s.
  assert (Hread : read_message tn count b = (Returned VNone, b)).
  { rewrite (simple_read_message_found _ _ _ _ Hg). unfold count.
    now rewrite list_index_length. }
  assert (Hb1 : dict_get tn b1 = Some (msgs ++ [m])).
  { unfold b1. rewrite (simple_send_message_run _ _ _ _ Hg). simpl.
    apply dict_get_set_same. }
  destruct (simple_run_actions_skipped tn msgs m acts (mkConsumer tn (count + 1)) b1 []
              eq_refl ltac:(simpl; lia) Hb1) as (Hc & Hoff & extra & Hbs).
  split; [now apply simple_get_last_offset_run|]. split; [exact Hread|]. split.
  { rewrite (simple_get_next_message_run (mkConsumer tn count) b msgs Hg). simpl.
    replace (count <=? Z.of_nat (length msgs)) with true
      by (symmetry; apply Z.leb_le; unfold count; lia).
    now rewrite Hread. }
  split.
  { rewrite (simple_read_message_found _ _ _ _ Hb1). unfold count.
    now rewrite list_index_middle. }
  split.
  { rewrite (simple_read_message_found _ _ _ _ Hbs). unfold count.
    now rewrite list_index_middle. }
  split; [exact Hoff|].
  destruct (run_actions acts _) as [c' b']. simpl in *.
  rewrite <- Hc in Hbs.
  rewrite (simple_get_next_message_run _ _ _ Hbs). rewrite Hc.
  destruct (_ <=? _); simpl; auto.
Qed.

End SimpleFacts.

(** * 02_partitions.py: the count as last offset *)

Module PartitionsFacts.
Import Partitions.

Ltac run_monad :=
  unfold bind, ret, gets, getitem, raise, modify, try_except, sha1_mod; simpl.

Lemma partitions_get_last_offset_run tn p (b : Broker) msgs :
  messages_of b tn p = Some msgs ->
  get_last_offset tn p b = (Returned (Z.of_nat (length msgs)), b).
Proof.
  unfold messages_of. intros Hg. unfold get_last_offset. run_monad.
  destruct (dict_get tn b) as [t|]; [|discriminate]. simpl. now rewrite Hg.
Qed.

Lemma partitions_read_message_run tn p off (b : Broker) msgs :
  messages_of b tn p = Some msgs ->
  read_message tn p off b
  = (Returned match list_index msgs off with
              | Some m => VStr m
              | None => VNone
              end, b).
Proof.
  unfold messages_of. intros Hg. unfold read_message. run_monad.
  destruct (dict_get tn b) as [t|]; [|discriminate]. simpl. rewrite Hg. simpl.
  now destruct (list_index msgs off).
Qed.

(** [send_message] either leaves the broker as it is (it raised), or appends
    the message to the partition it computed. *)
Lemma partitions_send_message_cases tn m k (b : Broker) :
  snd (send_message tn m k b) = b \/
  exists t msgs,
    dict_get tn b = Some t /\
    dict_get (route (num_partitions t) k m) (partitions t) = Some msgs /\
    send_message tn m k b
    = (Returned VNone,
       dict_set tn
         (mkTopic (num_partitions t)
                  (dict_set (route (num_partitions t) k m) (msgs ++ [m])
                            (partitions t))) b).
Proof.
  unfold send_message. run_monad.
  destruct (dict_get tn b) as [t|] eqn:Ht; simpl; [|now left].
  destruct (num_partitions t =? 0); simpl; [now left|].
  fold (route (num_partitions t) k m).
  destruct (dict_get (route (num_partitions t) k m) (partitions t))
    as [msgs|] eqn:Hp; simpl; [|now left].
  right. exists t, msgs. auto.
Qed.

Lemma partitions_get_next_message_run c (b : Broker) msgs :
  messages_of b (topic c) (partition c) = Some msgs ->
  get_next_message (c, b)
  = if offset c <=? Z.of_nat (length msgs) then
      (fst (read_message (topic c) (partition c) (offset c) b),
       (mkConsumer (topic c) (partition c) (offset c + 1), b))
    else (Returned VNone, (c, b)).
Proof.
  intros Hg. unfold get_next_message, self, broker_call. run_monad.
  rewrite (partitions_get_last_offset_run _ _ _ _ Hg). simpl.
  destruct (_ <=? _); simpl; [|reflexivity].
  now rewrite (partitions_read_message_run _ _ _ _ _ Hg).
Qed.

Lemma partitions_run_actions_skipped tn p msgs m acts : forall c (b : Broker) extra,
  topic c = tn ->
  partition c = p ->
  Z.of_nat (length msgs) < offset c ->
  messages_of b tn p = Some (msgs ++ m :: extra) ->
  topic (fst (run_actions acts (c, b))) = tn /\
  partition (fst (run_actions acts (c, b))) = p /\
  Z.of_nat (length msgs) < offset (fst (run_actions acts (c, b))) /\
  exists extra',
    messages_of (snd (run_actions acts (c, b))) tn p = Some (msgs ++ m :: extra').
Proof.
  induction acts as [|a acts IH]; intros c b extra Hc Hcp Hoff Hb.
  - simpl. eauto.
  - unfold run_actions. simpl. fold (run_actions acts).
    destruct a as [tn' m' k'|]; simpl.
    + destruct (partitions_send_message_cases tn' m' k' b)
        as [->|(t & msgs' & Ht & Hp & ->)]; [eauto|].
      simpl. set (p' := route (num_partitions t) k' m') in *.
      unfold messages_of in Hb.
      destruct (string_dec tn' tn) as [->|Hne].
      * rewrite Ht in Hb.
        destruct (Z.eq_dec p' p) as [Hpp|Hpp].
        -- rewrite Hpp in Hp. rewrite Hb in Hp. injection Hp as <-.
           apply (IH c _ (extra ++ [m'])); try assumption.
           unfold messages_of. rewrite dict_get_set_same. simpl.
           rewrite Hpp, dict_get_set_same. now rewrite <- app_assoc.
        -- apply (IH c _ extra); try assumption.
           unfold messages_of. rewrite dict_get_set_same. simpl.
           now rewrite dict_get_set_other.
      * apply (IH c _ extra); try assumption.
        unfold messages_of. now rewrite dict_get_set_other.
    + rewrite <- Hc, <- Hcp in Hb. rewrite (partitions_get_next_message_run _ _ _ Hb).
      rewrite Hc, Hcp in Hb.
      destruct (_ <=? _); simpl.
      * apply (IH _ b extra); simpl; [assumption|assumption|lia|assumption].
      * apply (IH c b extra); assumption.
Qed.

Lemma partitions_off_by_one tn p msgs m k t acts (b : Broker) :
  dict_get tn b = Some t ->
  num_partitions t <> 0 ->
  route (num_partitions t) k m = p ->
  dict_get p (partitions t) = Some msgs ->
  let count := Z.of_nat (length msgs) in
  let b1 := snd (send_message tn m k b) in
  let s := run_actions acts (mkConsumer tn p (count + 1), b1) in
  get_last_offset tn p b = (Returned count, b) /\
  read_message tn p count b = (Returned VNone, b) /\
  get_next_message (mkConsumer tn p count, b)
  = (Returned VNone, (mkConsumer tn p (count + 1), b)) /\
  fst (read_message tn p count b1) = Returned (VStr m) /\
  fst (read_message tn p count (snd s)) = Returned (VStr m) /\
  count < offset (fst s) /\
  (fst (get_next_message s) = Returned VNone \/
   fst (get_next_message s)
   = fst (read_message tn p (offset (fst s)) (snd s))).
Proof.
  intros Ht Hn Hroute Hp count b1 s. subst s.
  assert (Hg : messages_of b tn p = Some msgs)
    by (unfold messages_of; now rewrite Ht).
  assert (Hread : read_message tn p count b = (Returned VNone, b)).
  { rewrite (partitions_read_message_run _ _ _ _ _ Hg). unfold count.
    now rewrite list_index_length. }
  assert (Hb1 : messages_of b1 tn p = Some (msgs ++ [m])).
  { unfold b1, messages_of, send_message. run_monad. rewrite Ht. simpl.
    destruct (Z.eqb_spec (num_partitions t) 0) as [|_]; [contradiction|]. simpl.
    fold (route (num_partitions t) k m). rewrite Hroute, Hp. simpl.
    rewrite dict_get_set_same. simpl. apply dict_get_set_same. }
  destruct (partitions_run_actions_skipped tn p msgs m acts (mkConsumer tn p (count + 1)) b1 []
              eq_refl eq_refl ltac:(simpl; lia) Hb1)
    as (Hc & Hcp & Hoff & extra & Hbs).
  split; [now apply partitions_get_last_offset_run|]. split; [exact Hread|]. split.
  { rewrite (partitions_get_next_message_run (mkConsumer tn p count) b msgs Hg). simpl.
    replace (count <=? Z.of_nat (length msgs)) with true
      by (symmetry; apply Z.leb_le; unfold count; lia).
    now rewrite Hread. }
  split.
  { rewrite (partitions_read_message_run _ _ _ _ _ Hb1). unfold count.
    now rewrite list_index_middle. }
  split.
  { rewrite (partitions_read_message_run _ _ _ _ _ Hbs). unfold count.
    now rewrite list_index_middle. }
  split; [exact Hoff|].
  destruct (run_actions acts _) as [c' b']. simpl in *.
  rewrite <- Hc, <- Hcp in Hbs.
  rewrite (partitions_get_next_message_run _ _ _ Hbs). rewrite Hc, Hcp.
  destruct (_ <=? _); simpl; auto.
Qed.

End PartitionsFacts.

(** * The off-by-one of the two earlier designs *)

(** C9: in [01_simple_kafka.py] and [02_partitions.py], [get_last_offset] is
    the number of stored messages. A consumer whose cursor equals that count
    polls: [read_message] is called one past the last valid index and returns
    [None], and the cursor still advances to count + 1. The message appended
    next is stored at offset count and stays there, but whatever is sent or
    polled afterwards the cursor stays above count, and a poll reads at the
    cursor or not at all: that message is never delivered. *)
Theorem C9_count_as_last_offset_skips_a_message
    (b : Simple.Broker) (tn : string) (msgs : list string) (m : string)
    (acts : list Simple.action)
    (b' : Partitions.Broker) (tn' : string) (t' : Partitions.Topic) (p' : Z)
    (msgs' : list string) (m' : string) (k' : option string)
    (acts' : list Partitions.action) :
  dict_get tn b = Some msgs ->
  dict_get tn' b' = Some t' ->
  Partitions.num_partitions t' <> 0 ->
  Partitions.route (Partitions.num_partitions t') k' m' = p' ->
  dict_get p' (Partitions.partitions t') = Some msgs' ->
  (let count := Z.of_nat (length msgs) in
   let b1 := snd (Simple.send_message tn m b) in
   let s := Simple.run_actions acts (Simple.mkConsumer tn (count + 1), b1) in
   Simple.get_last_offset tn b = (Returned count, b) /\
   Simple.read_message tn count b = (Returned VNone, b) /\
   Simple.get_next_message (Simple.mkConsumer tn count, b)
   = (Returned VNone, (Simple.mkConsumer tn (count + 1), b)) /\
   fst (Simple.read_message tn count b1) = Returned (VStr m) /\
   fst (Simple.read_message tn count (snd s)) = Returned (VStr m) /\
   count < Simple.offset (fst s) /\
   (fst (Simple.get_next_message s) = Returned VNone \/
    fst (Simple.get_next_message s)
    = fst (Simple.read_message tn (Simple.offset (fst s)) (snd s)))) /\
  (let count := Z.of_nat (length msgs') in
   let b1 := snd (Partitions.send_message tn' m' k' b') in
   let s :=
     Partitions.run_actions acts' (Partitions.mkConsumer tn' p' (count + 1), b1) in
   Partitions.get_last_offset tn' p' b' = (Returned count, b') /\
   Partitions.read_message tn' p' count b' = (Returned VNone, b') /\
   Partitions.get_next_message (Partitions.mkConsumer tn' p' count, b')
   = (Returned VNone, (Partitions.mkConsumer tn' p' (count + 1), b')) /\
   fst (Partitions.read_message tn' p' count b1) = Returned (VStr m') /\
   fst (Partitions.read_message tn' p' count (snd s)) = Returned (VStr m') /\
   count < Partitions.offset (fst s) /\
   (fst (Partitions.get_next_message s) = Returned VNone \/
    fst (Partitions.get_next_message s)
    = fst (Partitions.read_message tn' p' (Partitions.offset (fst s)) (snd s)))).
Proof.
  intros Hg Ht Hn Hroute Hp. split.
  - now apply SimpleFacts.simple_off_by_one.
  - now apply (PartitionsFacts.partitions_off_by_one tn' p' msgs' m' k' t').
Qed.

Lemma C9_witness :
  (Simple.get_next_message (Simple.mkConsumer "t" 1, Simple.broker_x)
   = (Returned VNone, (Simple.mkConsumer "t" 2, Simple.broker_x)) /\
   fst (Simple.read_message "t" 1 (snd (Simple.send_message "t" "y" Simple.broker_x)))
   = Returned (VStr "y")) /\
  (Partitions.get_next_message (Partitions.mkConsumer "t" 0 1, Partitions.broker_x)
   = (Returned VNone, (Partitions.mkConsumer "t" 0 2, Partitions.broker_x)) /\
   fst (Partitions.read_message "t" 0 1
          (snd (Partitions.send_message "t" "y" None Partitions.broker_x)))
   = Returned (VStr "y")).
Proof.
  destruct (C9_count_as_last_offset_skips_a_message
              Simple.broker_x "t" ["x"%string] "y" [Simple.Poll]
              Partitions.broker_x "t"
              (Partitions.mkTopic 1 [(0, ["x"%string])]) 0 ["x"%string] "y" None
              [Partitions.Poll])
    as [(_ & _ & Hpoll & Hread & _) (_ & _ & Hpoll' & Hread' & _)].
  - reflexivity.
  - reflexivity.
  - simpl. lia.
  - vm_compute. reflexivity.
  - reflexivity.
  - split; split; assumption.
Defined.


(** * 03_retention.py: further properties of the broker and the consumer *)

Module RetentionMore.
Import Retention RetentionFacts.

(** ** Reading, in terms of the stored records *)

Lemma read_message_value w tn p off v :
  fst (read_message tn p off w) = Returned (VStr v) <->
  exists recs rec,
    records_of w tn p = Some recs /\ dict_get off recs = Some rec /\
    message rec = v.
Proof.
  unfold records_of. destruct (dict_get tn (topics w)) as [t|] eqn:Ht.
  - rewrite (read_message_run _ _ _ _ _ Ht). simpl.
    destruct (dict_get p (partitions t)) as [recs|].
    + destruct (dict_get off recs) as [rec|] eqn:Hoff; split.
      * intros [= <-]. eauto.
      * intros (recs' & rec' & [= <-] & Hoff' & <-). congruence.
      * discriminate.
      * intros (recs' & rec' & [= <-] & Hoff' & _). congruence.
    + split; [discriminate|]. intros (? & ? & ? & _). discriminate.
  - rewrite read_message_unknown_topic by assumption. simpl.
    split; [discriminate|]. intros (? & ? & ? & _). discriminate.
Qed.

Lemma dict_get_app_present {V : Type} (k : Z) (v : V) (d d' : dict Z V) :
  dict_get k d = Some v -> dict_get k (d ++ d') = Some v.
Proof.
  induction d as [|[k' v'] d IH]; simpl; [discriminate|].
  destruct (k =? k'); auto.
Qed.

Lemma sorted_hd_least (a : Z) (l : list Z) (k : Z) :
  StronglySorted Z.lt (a :: l) -> In k (a :: l) -> a <= k.
Proof.
  intros Hs [->|Hin]; [lia|]. inversion Hs as [|? ? _ Hall]; subst.
  rewrite Forall_forall in Hall. specialize (Hall k Hin). lia.
Qed.

Lemma last_In (l : list Z) (d : Z) : l <> [] -> In (last l d) l.
Proof.
  induction l as [|a l IH]; [contradiction|]. intros _.
  destruct l as [|b l]; [now left|]. right. apply IH. discriminate.
Qed.

(** X1: in a reachable world the offsets that [get_first_offset] and
    [get_last_offset] report for a non-empty partition are live, and they
    are the least and the greatest live offset. *)
Theorem first_and_last_offset_bound_the_live_offsets (w : World) (tn : string)
    (p : Z) (recs : dict Z Record_) (oldest newest : Z) :
  reachable w ->
  records_of w tn p = Some recs ->
  recs <> [] ->
  get_first_offset tn p w = (Returned oldest, w) ->
  get_last_offset tn p w = (Returned newest, w) ->
  In oldest (dict_keys recs) /\
  In newest (dict_keys recs) /\
  (forall off, In off (dict_keys recs) -> oldest <= off <= newest) /\
  (exists v, fst (read_message tn p oldest w) = Returned (VStr v)) /\
  (exists v, fst (read_message tn p newest w) = Returned (VStr v)).
Proof.
  intros Hw Hr Hne Hfirst Hlast.
  pose proof (reachable_records_inv _ _ _ _ Hw Hr) as [Hs _].
  pose proof Hr as Hr0. unfold records_of in Hr.
  destruct (dict_get tn (topics w)) as [t|] eqn:Ht; [|discriminate].
  rewrite (get_first_offset_run _ _ _ _ _ Ht Hr) in Hfirst.
  rewrite (get_last_offset_run _ _ _ _ _ Ht Hr) in Hlast.
  injection Hfirst as <-. injection Hlast as <-.
  destruct recs as [|[o rec] recs]; [contradiction|].
  change (list_or (dict_keys ((o, rec) :: recs)) [-1])
    with (dict_keys ((o, rec) :: recs)).
  assert (Hin_first : In (hd 0 (dict_keys ((o, rec) :: recs)))
                         (dict_keys ((o, rec) :: recs))) by now left.
  assert (Hin_last : In (last (dict_keys ((o, rec) :: recs)) 0)
                        (dict_keys ((o, rec) :: recs)))
    by (apply last_In; discriminate).
  assert (Hread : forall off, In off (dict_keys ((o, rec) :: recs)) ->
            exists v, fst (read_message tn p off w) = Returned (VStr v)).
  { intros off Hin.
    destruct (dict_get off ((o, rec) :: recs)) as [r|] eqn:Hoff.
    - exists (message r). apply read_message_value. eauto.
    - apply dict_get_None in Hoff. contradiction. }
  repeat split; auto.
  - now apply (sorted_hd_least o (dict_keys recs)).
  - now apply sorted_le_last.
Qed.

Lemma first_and_last_offset_witness :
  In 0 (dict_keys [(0, mkRecord 0 (encode_utf8 "a") "a");
                   (1, mkRecord 10 (encode_utf8 "b") "b");
                   (2, mkRecord 20 (encode_utf8 "c") "c")]) /\
  In 2 (dict_keys [(0, mkRecord 0 (encode_utf8 "a") "a");
                   (1, mkRecord 10 (encode_utf8 "b") "b");
                   (2, mkRecord 20 (encode_utf8 "c") "c")]) /\
  (forall off,
     In off (dict_keys [(0, mkRecord 0 (encode_utf8 "a") "a");
                        (1, mkRecord 10 (encode_utf8 "b") "b");
                        (2, mkRecord 20 (encode_utf8 "c") "c")]) ->
     0 <= off <= 2) /\
  (exists v, fst (read_message "t" 0 0 world_three) = Returned (VStr v)) /\
  (exists v, fst (read_message "t" 0 2 world_three) = Returned (VStr v)).
Proof.
  apply (first_and_last_offset_bound_the_live_offsets world_three "t" 0).
  - exact reachable_world_three.
  - vm_compute. reflexivity.
  - discriminate.
  - vm_compute. reflexivity.
  - vm_compute. reflexivity.
Defined.

(** ** Vacuum and append, seen through [read_message] *)

Lemma dict_get_same_keys {V V' : Type} (k : string) (d : dict string V)
    (d' : dict string V') :
  dict_keys d' = dict_keys d -> dict_get k d = None -> dict_get k d' = None.
Proof.
  intros Hk Hn. apply dict_get_None. rewrite Hk. now apply dict_get_None.
Qed.

(** X2: [Broker.vacuum] never raises in a reachable world (the [del] of its
    inner loop always finds its key); it reads the clock once per topic,
    keeps the topic names, the partition count, the retention and the
    partition indexes of every topic, and it only removes: whatever
    [read_message] returns afterwards, it returned before. *)
Theorem vacuum_only_removes (w : World) :
  reachable w ->
  fst (Broker_vacuum w) = Returned VNone /\
  ticks (snd (Broker_vacuum w)) = (ticks w + length (topics w))%nat /\
  dict_keys (topics (snd (Broker_vacuum w))) = dict_keys (topics w) /\
  (forall tn t,
     dict_get tn (topics w) = Some t ->
     exists t',
       dict_get tn (topics (snd (Broker_vacuum w))) = Some t' /\
       num_partitions t' = num_partitions t /\
       retention_seconds t' = retention_seconds t /\
       dict_keys (partitions t') = dict_keys (partitions t)) /\
  (forall tn p off v,
     fst (read_message tn p off (snd (Broker_vacuum w))) = Returned (VStr v) ->
     fst (read_message tn p off w) = Returned (VStr v)).
Proof.
  intros Hw.
  assert (Hkeys : dict_keys (topics (snd (Broker_vacuum w))) = dict_keys (topics w)).
  { destruct (Broker_vacuum_run w (reachable_world_inv w Hw)) as [out ->].
    simpl. apply vacuumed_topics_keys. }
  assert (Htopic : forall tn t,
     dict_get tn (topics w) = Some t ->
     exists i : nat,
       dict_get tn (topics (snd (Broker_vacuum w)))
       = Some (vacuumed_topic (clock w (ticks w + i)%nat) t)).
  { intros tn t Ht.
    destruct (Broker_vacuum_run w (reachable_world_inv w Hw)) as [out ->].
    simpl.
    destruct (dict_get_vacuumed_topics (clock w) tn t (topics w) (ticks w) Ht)
      as (i & _ & Hget). eauto. }
  split; [|split; [|split; [exact Hkeys|split]]].
  - now destruct (Broker_vacuum_run w (reachable_world_inv w Hw)) as [out ->].
  - now destruct (Broker_vacuum_run w (reachable_world_inv w Hw)) as [out ->].
  - intros tn t Ht. destruct (Htopic tn t Ht) as [i Hget].
    eexists. split; [exact Hget|]. simpl. repeat split.
    unfold dict_keys. rewrite map_map. reflexivity.
  - intros tn p off v Hread. apply read_message_value in Hread.
    destruct Hread as (recs' & rec & Hr' & Hoff' & Hv).
    apply read_message_value. unfold records_of in *.
    destruct (dict_get tn (topics w)) as [t|] eqn:Ht.
    2: { rewrite (dict_get_same_keys tn (topics w) _ Hkeys Ht) in Hr'.
         discriminate. }
    destruct (Htopic tn t Ht) as [i Hget]. rewrite Hget in Hr'. simpl in Hr'.
    rewrite dict_get_vacuumed_partition in Hr'.
    destruct (dict_get p (partitions t)) as [recs|] eqn:Hp; [|discriminate].
    simpl in Hr'. injection Hr' as <-.
    pose proof (Forall_dict_get (records_inv (clock w) (ticks w)) _ _ _
                  (proj2 (reachable_topic_inv w tn t Hw Ht)) Hp) as [Hs _].
    rewrite dict_get_filter in Hoff' by (now apply StronglySorted_lt_NoDup).
    destruct (dict_get off recs) as [rec0|] eqn:Hoff; [|discriminate].
    destruct (live _ _ _); [|discriminate]. injection Hoff' as <-.
    exists recs, rec0. auto.
Qed.

Lemma vacuum_only_removes_witness :
  fst (Broker_vacuum world_three) = Returned VNone /\
  ticks (snd (Broker_vacuum world_three))
  = (ticks world_three + length (topics world_three))%nat /\
  dict_keys (topics (snd (Broker_vacuum world_three)))
  = dict_keys (topics world_three) /\
  (forall tn t,
     dict_get tn (topics world_three) = Some t ->
     exists t',
       dict_get tn (topics (snd (Broker_vacuum world_three))) = Some t' /\
       num_partitions t' = num_partitions t /\
       retention_seconds t' = retention_seconds t /\
       dict_keys (partitions t') = dict_keys (partitions t)) /\
  (forall tn p off v,
     fst (read_message tn p off (snd (Broker_vacuum world_three)))
     = Returned (VStr v) ->
     fst (read_message tn p off world_three) = Returned (VStr v)).
Proof. apply vacuum_only_removes. exact reachable_world_three. Defined.

(** X3: a [send_message] that succeeds overwrites nothing: every message
    that [read_message] returned before is still returned at the same place;
    the offset it uses is above every live offset of the partition, and
    [get_last_offset] of that partition goes up by exactly one. *)
Theorem send_message_keeps_what_was_readable (w : World) (tn : string)
    (t : Topic) (m : string) (k : option string) :
  reachable w ->
  dict_get tn (topics w) = Some t ->
  0 < num_partitions t ->
  let w' := snd (send_message tn m k w) in
  let p := route (num_partitions t) k m in
  (forall tn' p' off' v,
     fst (read_message tn' p' off' w) = Returned (VStr v) ->
     fst (read_message tn' p' off' w') = Returned (VStr v)) /\
  exists newest recs,
    records_of w tn p = Some recs /\
    get_last_offset tn p w = (Returned newest, w) /\
    get_last_offset tn p w' = (Returned (newest + 1), w') /\
    (forall off, In off (dict_keys recs) -> off < newest + 1).
Proof.
  intros Hw Ht Hn w' p.
  destruct (send_message_stores w tn t m k Hw Ht Hn)
    as (recs & Hr & _ & _ & Ht' & Hr' & Hp_other & Htn_other).
  fold p in Hr, Ht', Hr', Hp_other. fold w' in Ht', Hr', Hp_other, Htn_other.
  pose proof (reachable_records_inv _ _ _ _ Hw Hr) as [Hs _].
  split.
  - intros tn' p' off' v Hread. apply read_message_value in Hread.
    destruct Hread as (recs0 & rec0 & Hr0 & Hoff0 & Hv).
    apply read_message_value.
    destruct (string_dec tn' tn) as [->|Hne].
    + destruct (Z.eq_dec p' p) as [->|Hpp].
      * rewrite Hr in Hr0. injection Hr0 as <-.
        eexists. exists rec0. split; [exact Hr'|]. split; [|exact Hv].
        now apply dict_get_app_present.
      * exists recs0, rec0. rewrite (Hp_other p' Hpp). auto.
    + exists recs0, rec0. rewrite (Htn_other tn' p' Hne). auto.
  - exists (last (list_or (dict_keys recs) [-1]) 0), recs.
    split; [exact Hr|]. unfold records_of in Hr, Hr'.
    rewrite Ht in Hr. rewrite Ht' in Hr'. split; [|split].
    + now apply (get_last_offset_run _ _ _ t).
    + rewrite (get_last_offset_run _ _ _ _ _ Ht' Hr'). do 2 f_equal.
      rewrite dict_keys_app. simpl.
      destruct (dict_keys recs) as [|a l]; [reflexivity|].
      change (list_or ((a :: l) ++ [_]) [-1]) with ((a :: l) ++ [last (list_or (a :: l) [-1]) 0 + 1]).
      apply last_last.
    + intros off Hin. pose proof (next_offset_fresh recs Hs) as Hall.
      rewrite Forall_forall in Hall. exact (Hall off Hin).
Qed.

Lemma send_message_keeps_witness :
  let w' := snd (send_message "t" "d" None world_three) in
  let p := route 1 None "d" in
  (forall tn' p' off' v,
     fst (read_message tn' p' off' world_three) = Returned (VStr v) ->
     fst (read_message tn' p' off' w') = Returned (VStr v)) /\
  exists newest recs,
    records_of world_three "t" p = Some recs /\
    get_last_offset "t" p world_three = (Returned newest, world_three) /\
    get_last_offset "t" p w' = (Returned (newest + 1), w') /\
    (forall off, In off (dict_keys recs) -> off < newest + 1).
Proof.
  apply (send_message_keeps_what_was_readable world_three "t"
           (mkTopic 1 15 [(0, [(0, mkRecord 0 (encode_utf8 "a") "a");
                               (1, mkRecord 10 (encode_utf8 "b") "b");
                               (2, mkRecord 20 (encode_utf8 "c") "c")])])
           "d" None).
  - exact reachable_world_three.
  - vm_compute. reflexivity.
  - simpl. lia.
Defined.

Lemma reachable_world_negative : reachable world_negative.
Proof. apply reachable_run_calls. constructor. Qed.

(** X4: a topic created with a partition count that is zero or negative
    can never receive a message: in a reachable world every [send_message]
    to it raises, and no topic changes. (With the count zero the modulo
    raises before the clock is read; with a negative count the topic has no
    partition and the lookup of the partition raises after the clock was
    read.) *)
Theorem send_message_to_a_topic_without_partitions (w : World) (tn : string)
    (t : Topic) (m : string) (k : option string) :
  reachable w ->
  dict_get tn (topics w) = Some t ->
  num_partitions t <= 0 ->
  (exists e, fst (send_message tn m k w) = Raised e) /\
  topics (snd (send_message tn m k w)) = topics w /\
  (ticks w <= ticks (snd (send_message tn m k w)) <= S (ticks w))%nat /\
  (forall tn' p' off',
     fst (read_message tn' p' off' (snd (send_message tn m k w)))
     = fst (read_message tn' p' off' w)).
Proof.
  intros Hw Ht Hn.
  assert (Hrun : send_message tn m k w = (Raised ZeroDivisionError, w) \/
                 send_message tn m k w = (Raised KeyError, tick w)).
  { destruct (Z.eq_dec (num_partitions t) 0) as [Hz|Hnz].
    - left. now apply (send_message_no_partitions _ _ _ _ t).
    - right. apply (send_message_no_partition _ _ _ _ _ Ht Hnz).
      destruct (dict_get _ (partitions t)) eqn:E; [|reflexivity]. exfalso.
      assert (Hsome : dict_get (route (num_partitions t) k m) (partitions t)
                      <> None) by congruence.
      apply (partition_exists w tn t _ Hw Ht) in Hsome. lia. }
  destruct Hrun as [-> | ->]; simpl.
  - repeat split; eauto; lia.
  - repeat split; eauto; try lia.
    intros tn' p' off'.
    destruct (dict_get tn' (topics w)) as [t'|] eqn:Ht'.
    + now rewrite (read_message_run tn' p' off' (tick w) t' Ht'),
        (read_message_run tn' p' off' w t' Ht').
    + now rewrite (read_message_unknown_topic tn' p' off' (tick w) Ht'),
        (read_message_unknown_topic tn' p' off' w Ht').
Qed.

Lemma send_message_to_a_topic_without_partitions_witness :
  (exists e, fst (send_message "t" "a" None world_negative) = Raised e) /\
  topics (snd (send_message "t" "a" None world_negative)) = topics world_negative /\
  (ticks world_negative <= ticks (snd (send_message "t" "a" None world_negative))
   <= S (ticks world_negative))%nat /\
  (forall tn' p' off',
     fst (read_message tn' p' off' (snd (send_message "t" "a" None world_negative)))
     = fst (read_message tn' p' off' world_negative)).
Proof.
  apply (send_message_to_a_topic_without_partitions world_negative "t"
           (Topic_init (-2) 5) "a" None).
  - exact reachable_world_negative.
  - reflexivity.
  - simpl. lia.
Defined.

(** X5: a poll never moves the cursor back, never rebinds the consumer and
    never touches the broker's records or the clock (it may only print); a
    poll that returns a message moves the cursor forward. *)
Theorem poll_never_moves_back (c : Consumer) (w : World) :
  let r := fst (get_next_message (c, w)) in
  let c' := fst (snd (get_next_message (c, w))) in
  let w' := snd (snd (get_next_message (c, w))) in
  offset c <= offset c' /\
  topic c' = topic c /\
  partition c' = partition c /\
  (exists out, w' = write out w) /\
  (forall v, r = Returned (VStr v) -> offset c < offset c').
Proof.
  destruct (records_of w (topic c) (partition c)) as [recs|] eqn:Hr.
  - rewrite (get_next_message_run _ _ _ Hr). cbv zeta. unfold skip_ahead.
    simpl fst. simpl snd.
    destruct (Z.gtb_spec (hd 0 (list_or (dict_keys recs) [-1])) (offset c));
      simpl; destruct (_ <=? _); simpl;
      repeat split; try lia;
      try (intros v Hv; discriminate Hv);
      first [now eexists | exists []; now rewrite write_nil].
  - rewrite (get_next_message_unbound _ _ Hr). simpl.
    repeat split; try lia; [exists []; now rewrite write_nil|].
    intros v Hv. discriminate Hv.
Qed.

(** ** Polling through a partition *)

Lemma nth_error_interval lo (n i : nat) :
  (i < n)%nat -> nth_error (interval lo n) i = Some (lo + Z.of_nat i).
Proof.
  intros Hi. unfold interval. rewrite nth_error_map, nth_error_seq.
  destruct (Nat.ltb_spec i n); [reflexivity|lia].
Qed.

Lemma hd_interval lo (n : nat) : (0 < n)%nat -> hd 0 (interval lo n) = lo.
Proof. destruct n; [lia|]. intros _. unfold interval. simpl. lia. Qed.

Lemma last_interval lo (n : nat) :
  (0 < n)%nat -> last (interval lo n) 0 = lo + Z.of_nat n - 1.
Proof.
  intros Hn. destruct n as [|n]; [lia|]. unfold interval.
  rewrite seq_S, map_app. simpl. rewrite last_last. lia.
Qed.

Lemma dict_get_nth (recs : dict Z Record_) (i : nat) (kr : Z * Record_) :
  NoDup (dict_keys recs) ->
  nth_error recs i = Some kr ->
  dict_get (fst kr) recs = Some (snd kr).
Proof.
  revert i. induction recs as [|[o r] recs IH]; intros i Hnd Hnth.
  - destruct i; discriminate.
  - inversion Hnd as [|? ? Hn Hnd']; subst. simpl.
    destruct i as [|i]; simpl in Hnth.
    + injection Hnth as <-. simpl. now rewrite Z.eqb_refl.
    + destruct (Z.eqb_spec (fst kr) o) as [Heq|_]; [|eauto].
      exfalso. apply Hn. rewrite <- Heq. apply in_map.
      eapply nth_error_In. exact Hnth.
Qed.

Lemma skipn_nth {A : Type} (l : list A) (i : nat) (a : A) :
  nth_error l i = Some a -> skipn i l = a :: skipn (S i) l.
Proof.
  revert i. induction l as [|b l IH]; intros i Hnth.
  - destruct i; discriminate.
  - destruct i as [|i]; simpl in *; [now injection Hnth as ->|auto].
Qed.

(** A poll with the cursor on a live offset of a gapless partition. *)
Lemma poll_in_range w c recs lo (i : nat) kr :
  records_of w (topic c) (partition c) = Some recs ->
  NoDup (dict_keys recs) ->
  dict_keys recs = interval lo (length recs) ->
  nth_error recs i = Some kr ->
  offset c = lo + Z.of_nat i ->
  get_next_message (c, w)
  = (Returned (VStr (message (snd kr))),
     (mkConsumer (topic c) (partition c) (offset c + 1), w)).
Proof.
  intros Hr Hnd Hkeys Hnth Hoff.
  assert (Hi : (i < length recs)%nat)
    by (apply nth_error_Some; congruence).
  assert (Hfst : fst kr = lo + Z.of_nat i).
  { pose proof (map_nth_error fst _ _ Hnth) as Hk.
    fold (dict_keys recs) in Hk. rewrite Hkeys, nth_error_interval in Hk by lia.
    congruence. }
  rewrite (get_next_message_run _ _ _ Hr). cbv zeta.
  assert (Hor : list_or (dict_keys recs) [-1] = dict_keys recs).
  { destruct recs; [simpl in Hi; lia|reflexivity]. }
  rewrite Hor, Hkeys, hd_interval, last_interval by lia.
  unfold skip_ahead. simpl fst.
  replace (lo >? offset c) with false
    by (symmetry; rewrite Z.gtb_ltb; apply Z.ltb_ge; lia).
  simpl fst. simpl snd.
  replace (offset c <=? lo + Z.of_nat (length recs) - 1) with true
    by (symmetry; apply Z.leb_le; lia).
  rewrite Hoff at 1. rewrite <- Hfst.
  now rewrite (dict_get_nth recs i kr Hnd Hnth).
Qed.

Lemma poll_n_in_range w recs lo tn p : forall (j i : nat),
  records_of w tn p = Some recs ->
  NoDup (dict_keys recs) ->
  dict_keys recs = interval lo (length recs) ->
  (i + j = length recs)%nat ->
  poll_n j (mkConsumer tn p (lo + Z.of_nat i), w)
  = (map (fun kr => Returned (VStr (message (snd kr)))) (skipn i recs),
     (mkConsumer tn p (lo + Z.of_nat (length recs)), w)).
Proof.
  induction j as [|j IH]; intros i Hr Hnd Hkeys Hij.
  - replace i with (length recs) by lia. now rewrite skipn_all.
  - destruct (nth_error recs i) as [kr|] eqn:Hnth.
    2: { apply nth_error_None in Hnth. lia. }
    simpl.
    rewrite (poll_in_range w (mkConsumer tn p (lo + Z.of_nat i)) recs lo i kr)
      by (simpl; auto).
    simpl. replace (lo + Z.of_nat i + 1) with (lo + Z.of_nat (S i)) by lia.
    rewrite (IH (S i)) by (auto; lia).
    now rewrite (skipn_nth recs i kr Hnth).
Qed.

(** The first poll of a consumer that is at or below the oldest offset. *)
Lemma first_poll w c o rec recs' :
  records_of w (topic c) (partition c) = Some ((o, rec) :: recs') ->
  StronglySorted Z.lt (dict_keys ((o, rec) :: recs')) ->
  offset c <= o ->
  get_next_message (c, w)
  = (Returned (VStr (message rec)),
     (mkConsumer (topic c) (partition c) (o + 1),
      write (if offset c <? o
             then [Missed_some_messages (partition c); Skipping_ahead o]
             else []) w)).
Proof.
  intros Hr Hs Hoff.
  pose proof (sorted_hd_le_last _ 0 0 Hs ltac:(discriminate)) as Hle.
  simpl hd in Hle.
  rewrite (get_next_message_run _ _ _ Hr). cbv zeta.
  change (list_or (dict_keys ((o, rec) :: recs')) [-1])
    with (dict_keys ((o, rec) :: recs')).
  change (hd 0 (dict_keys ((o, rec) :: recs'))) with o.
  unfold skip_ahead. simpl fst. simpl snd. rewrite Z.gtb_ltb.
  destruct (Z.ltb_spec (offset c) o) as [Hlt|Hge]; simpl fst; simpl snd;
    simpl offset.
  - replace (o <=? last (dict_keys ((o, rec) :: recs')) 0) with true
      by (symmetry; apply Z.leb_le; exact Hle).
    simpl dict_get. now rewrite Z.eqb_refl.
  - assert (Heq : offset c = o) by lia. rewrite Heq.
    replace (o <=? last (dict_keys ((o, rec) :: recs')) 0) with true
      by (symmetry; apply Z.leb_le; exact Hle).
    simpl dict_get. rewrite Z.eqb_refl. now rewrite write_nil.
Qed.

(** X6: if the clock never goes back, a consumer whose cursor is at or
    below the oldest live offset of its (non-empty) partition gets, by as
    many polls as there are live records, the message of every live record,
    once and in offset order; only the first poll prints (when the cursor
    was behind); the cursor ends one past the newest offset, where the next
    poll returns [None]. *)
Theorem polls_deliver_the_live_records_in_order (w : World) (c : Consumer)
    (recs : dict Z Record_) :
  reachable w ->
  monotone (clock w) ->
  records_of w (topic c) (partition c) = Some recs ->
  recs <> [] ->
  offset c <= hd 0 (dict_keys recs) ->
  let oldest := hd 0 (dict_keys recs) in
  let out := if offset c <? oldest
             then [Missed_some_messages (partition c); Skipping_ahead oldest]
             else [] in
  let s := (mkConsumer (topic c) (partition c) (last (dict_keys recs) 0 + 1),
            write out w) in
  poll_n (length recs) (c, w)
  = (map (fun kr => Returned (VStr (message (snd kr)))) recs, s) /\
  get_next_message s = (Returned VNone, s).
Proof.
  intros Hw Hmono Hr Hne Hoff oldest out s.
  destruct (reachable_records_inv _ _ _ _ Hw Hr) as [Hs Hm].
  destruct (Hm Hmono) as (Hc & _ & _).
  pose proof (StronglySorted_lt_NoDup _ Hs) as Hnd.
  pose proof (consecutive_interval _ Hc) as Hkeys. fold oldest in Hkeys.
  assert (Hlenk : length (dict_keys recs) = length recs)
    by (unfold dict_keys; apply length_map).
  rewrite Hlenk in Hkeys.
  assert (Hlen : (0 < length recs)%nat)
    by (destruct recs; [contradiction|simpl; lia]).
  assert (Hlast : last (dict_keys recs) 0 = oldest + Z.of_nat (length recs) - 1).
  { rewrite Hkeys at 1. now apply last_interval. }
  assert (Hor : list_or (dict_keys recs) [-1] = dict_keys recs).
  { destruct recs; [contradiction|reflexivity]. }
  assert (Hrw : records_of (write out w) (topic c) (partition c) = Some recs)
    by exact Hr.
  split.
  - assert (Hshape : exists o rec recs', recs = (o, rec) :: recs')
      by (destruct recs as [|[o rec] recs']; [contradiction|eauto]).
    destruct Hshape as (o & rec & recs' & Erecs).
    assert (Ho : oldest = o) by (unfold oldest; now rewrite Erecs).
    assert (Hfirst : get_next_message (c, w)
              = (Returned (VStr (message rec)),
                 (mkConsumer (topic c) (partition c) (oldest + Z.of_nat 1),
                  write out w))).
    { pose proof Hr as Hr1. pose proof Hs as Hs1. rewrite Erecs in Hr1, Hs1.
      fold oldest in Hoff. rewrite Ho in Hoff.
      rewrite (first_poll w c o rec recs' Hr1 Hs1 Hoff).
      unfold out. rewrite Ho. do 3 f_equal; lia. }
    assert (Hrest : poll_n (length recs')
                      (mkConsumer (topic c) (partition c) (oldest + Z.of_nat 1),
                       write out w)
              = (map (fun kr => Returned (VStr (message (snd kr)))) (skipn 1 recs),
                 (mkConsumer (topic c) (partition c)
                             (oldest + Z.of_nat (length recs)), write out w))).
    { apply poll_n_in_range; try assumption. rewrite Erecs. simpl. lia. }
    replace (length recs) with (S (length recs')) at 1 by (now rewrite Erecs).
    simpl poll_n. rewrite Hfirst, Hrest. unfold s. rewrite Hlast.
    rewrite Erecs. simpl skipn. simpl map. do 3 f_equal; lia.
  - unfold s.
    rewrite (get_next_message_run
               (mkConsumer (topic c) (partition c) (last (dict_keys recs) 0 + 1))
               (write out w) recs Hrw).
    cbv zeta. rewrite Hor. fold oldest. unfold skip_ahead.
    simpl fst. simpl snd. simpl offset.
    replace (oldest >? last (dict_keys recs) 0 + 1) with false
      by (symmetry; rewrite Z.gtb_ltb; apply Z.ltb_ge; lia).
    simpl fst. simpl offset.
    replace (last (dict_keys recs) 0 + 1 <=? last (dict_keys recs) 0)
      with false by (symmetry; apply Z.leb_gt; lia).
    reflexivity.
Qed.

Lemma polls_deliver_witness :
  let recs := [(2, mkRecord 20 (encode_utf8 "c") "c")] in
  let c := mkConsumer "t" 0 1 in
  let oldest := hd 0 (dict_keys recs) in
  let out := if offset c <? oldest
             then [Missed_some_messages (partition c); Skipping_ahead oldest]
             else [] in
  let s := (mkConsumer (topic c) (partition c) (last (dict_keys recs) 0 + 1),
            write out world_gap) in
  poll_n (length recs) (c, world_gap)
  = (map (fun kr => Returned (VStr (message (snd kr)))) recs, s) /\
  get_next_message s = (Returned VNone, s).
Proof.
  apply (polls_deliver_the_live_records_in_order world_gap (mkConsumer "t" 0 1)
           [(2, mkRecord 20 (encode_utf8 "c") "c")]).
  - exact reachable_world_gap.
  - exact monotone_clock10.
  - vm_compute. reflexivity.
  - discriminate.
  - simpl. lia.
Defined.

(** ** The live offsets are never negative *)

Lemma dict_get_vacuumed_topics_inv clock tn t' items : forall n : nat,
  dict_get tn (vacuumed_topics clock n items) = Some t' ->
  exists t now, dict_get tn items = Some t /\ t' = vacuumed_topic now t.
Proof.
  induction items as [|[name t0] items IH]; intros n; simpl; [discriminate|].
  destruct (String.eqb tn name).
  - intros [= <-]. eauto.
  - apply IH.
Qed.

(** What a call can do to the records of a partition: leave them, append
    one record at the next offset, or filter them; a partition that appears
    is empty. *)
Lemma run_call_records w c tn p recs' :
  reachable w ->
  records_of (run_call c w) tn p = Some recs' ->
  recs' = [] \/
  exists recs,
    records_of w tn p = Some recs /\
    (recs' = recs \/
     (exists rec,
        recs' = recs ++ [(last (list_or (dict_keys recs) [-1]) 0 + 1, rec)]) \/
     (exists r now, recs' = filter (live r now) recs)).
Proof.
  intros Hw. destruct c as [name n r|tn' m k|tn' p' off'| |c]; cbn [run_call].
  - rewrite create_topic_run. unfold records_of. simpl.
    destruct (string_dec tn name) as [->|Hne].
    + rewrite dict_get_set_same. simpl. intros Hp. left.
      apply dict_get_In in Hp. apply in_map_iff in Hp.
      now destruct Hp as (i & [= _ <-] & _).
    + rewrite dict_get_set_other by congruence. intros Hr. right.
      exists recs'. auto.
  - destruct (send_message_cases tn' m k w)
      as [->|[->|(t & recs & Ht & Hp & ->)]];
      [intros Hr; right; exists recs'; auto
      |intros Hr; right; exists recs'; auto|].
    unfold records_of. simpl.
    destruct (string_dec tn tn') as [->|Hne].
    + rewrite dict_get_set_same, Ht. simpl.
      destruct (Z.eq_dec p (route (num_partitions t) k m)) as [->|Hpp].
      * rewrite dict_get_set_same, Hp. intros [= <-]. right. exists recs.
        split; [reflexivity|]. right. left. eexists.
        apply next_offset_append.
        pose proof (Forall_dict_get (records_inv (clock w) (ticks w)) _ _ _
                      (proj2 (reachable_topic_inv w tn' t Hw Ht)) Hp) as [Hs _].
        exact Hs.
      * rewrite dict_get_set_other by congruence. intros Hr. right.
        exists recs'. auto.
    + rewrite dict_get_set_other by congruence. intros Hr. right.
      exists recs'. auto.
  - rewrite read_message_world. intros Hr. right. exists recs'. auto.
  - destruct (Broker_vacuum_run w (reachable_world_inv w Hw)) as [out ->].
    unfold records_of. simpl.
    destruct (dict_get tn (vacuumed_topics (clock w) (ticks w) (topics w)))
      as [t'|] eqn:Ht'; [|discriminate].
    destruct (dict_get_vacuumed_topics_inv _ _ _ _ _ Ht') as (t & now & Ht & ->).
    rewrite Ht. simpl. rewrite dict_get_vacuumed_partition.
    destruct (dict_get p (partitions t)) as [recs|]; [|discriminate].
    simpl. intros [= <-]. right. exists recs. split; [reflexivity|].
    right. right. eauto.
  - destruct (get_next_message_world c w) as [out ->].
    intros Hr. right. exists recs'. auto.
Qed.

Lemma reachable_offsets_nonneg w :
  reachable w ->
  forall tn p recs,
    records_of w tn p = Some recs -> Forall (fun k => 0 <= k) (dict_keys recs).
Proof.
  induction 1 as [clock|w c Hw IH]; intros tn p recs' Hr.
  - discriminate.
  - destruct (run_call_records w c tn p recs' Hw Hr)
      as [->|(recs & Hr0 & [->|[(rec & ->)|(r & now & ->)]])].
    + constructor.
    + eauto.
    + specialize (IH _ _ _ Hr0). rewrite dict_keys_app. simpl.
      apply Forall_app. split; [assumption|]. constructor; [|constructor].
      destruct (dict_keys recs) as [|a l] eqn:E; [simpl; lia|].
      change (list_or (a :: l) [-1]) with (a :: l).
      rewrite Forall_forall in IH.
      specialize (IH (last (a :: l) 0) (last_In (a :: l) 0 ltac:(discriminate))).
      lia.
    + specialize (IH _ _ _ Hr0). rewrite Forall_forall in *.
      intros k' Hin. apply IH. unfold dict_keys in *.
      apply in_map_iff in Hin. destruct Hin as (kr & <- & Hkr).
      apply filter_In in Hkr. apply in_map. tauto.
Qed.

(** X15: in a reachable world no live offset is negative, so the sentinel
    -1 is unambiguous: for an existing partition [get_first_offset] and
    [get_last_offset] return -1 when it is empty and offsets
    [0 <= oldest <= newest] when it is not; for an unknown topic or a
    partition index that does not exist both raise KeyError (where
    [read_message] returns [None] for the partition). *)
Theorem offsets_and_the_empty_sentinel (w : World) (tn : string) (p : Z) :
  reachable w ->
  (forall recs, records_of w tn p = Some recs ->
     Forall (fun k => 0 <= k) (dict_keys recs) /\
     exists oldest newest,
       get_first_offset tn p w = (Returned oldest, w) /\
       get_last_offset tn p w = (Returned newest, w) /\
       (recs = [] -> oldest = -1 /\ newest = -1) /\
       (recs <> [] -> 0 <= oldest <= newest)) /\
  (records_of w tn p = None ->
   get_first_offset tn p w = (Raised KeyError, w) /\
   get_last_offset tn p w = (Raised KeyError, w)).
Proof.
  intros Hw. split.
  - intros recs Hr.
    pose proof (reachable_offsets_nonneg w Hw tn p recs Hr) as Hnn.
    pose proof (reachable_records_inv _ _ _ _ Hw Hr) as [Hs _].
    split; [exact Hnn|]. unfold records_of in Hr.
    destruct (dict_get tn (topics w)) as [t|] eqn:Ht; [|discriminate].
    exists (hd 0 (list_or (dict_keys recs) [-1])),
           (last (list_or (dict_keys recs) [-1]) 0).
    split; [now apply (get_first_offset_run _ _ _ t)|].
    split; [now apply (get_last_offset_run _ _ _ t)|]. split.
    + intros ->. split; reflexivity.
    + intros Hne. destruct recs as [|[o rec] recs]; [contradiction|].
      change (list_or (dict_keys ((o, rec) :: recs)) [-1])
        with (dict_keys ((o, rec) :: recs)).
      split.
      * inversion Hnn; subst. assumption.
      * apply sorted_hd_le_last; [assumption|discriminate].
  - unfold records_of. intros Hr.
    unfold get_first_offset, get_last_offset, bind, gets, getitem, raise, ret.
    simpl. destruct (dict_get tn (topics w)) as [t|]; simpl; [|auto].
    rewrite Hr. auto.
Qed.

Lemma offsets_and_the_empty_sentinel_witness :
  (forall recs, records_of world_gap "t" 0 = Some recs ->
     Forall (fun k => 0 <= k) (dict_keys recs) /\
     exists oldest newest,
       get_first_offset "t" 0 world_gap = (Returned oldest, world_gap) /\
       get_last_offset "t" 0 world_gap = (Returned newest, world_gap) /\
       (recs = [] -> oldest = -1 /\ newest = -1) /\
       (recs <> [] -> 0 <= oldest <= newest)) /\
  (records_of world_gap "t" 0 = None ->
   get_first_offset "t" 0 world_gap = (Raised KeyError, world_gap) /\
   get_last_offset "t" 0 world_gap = (Raised KeyError, world_gap)).
Proof. apply offsets_and_the_empty_sentinel. exact reachable_world_gap. Defined.

End RetentionMore.


(** * 01_simple_kafka.py: further properties *)

Module SimpleMore.
Import Simple SimpleFacts.

Lemma list_index_app_l {A : Type} (l l' : list A) (i : Z) :
  0 <= i < Z.of_nat (length l) -> list_index (l ++ l') i = list_index l i.
Proof.
  intros Hi. unfold list_index.
  replace (0 <=? i) with true by (symmetry; apply Z.leb_le; lia).
  apply nth_error_app1. lia.
Qed.

Lemma list_index_minus_one {A : Type} (l : list A) (a : A) :
  list_index (l ++ [a]) (-1) = Some a.
Proof.
  unfold list_index. rewrite length_app. simpl length.
  replace (0 <=? -1) with false by reflexivity.
  replace (- Z.of_nat (length l + 1) <=? -1) with true
    by (symmetry; apply Z.leb_le; lia).
  replace (Z.to_nat (Z.of_nat (length l + 1) + -1)) with (length l) by lia.
  rewrite nth_error_app2 by lia. now rewrite Nat.sub_diag.
Qed.


(** X7: in the first design, a message sent to an existing topic is
    appended: it is read back at the offset that was the count (and at
    offset -1, Python's index of the last element), [get_last_offset] goes up
    by one, every non-negative offset that was readable reads the same, and
    no other topic changes. *)
Theorem simple_send_then_read (b : Broker) (tn : string) (msgs : list string)
    (m : string) :
  dict_get tn b = Some msgs ->
  let b' := snd (send_message tn m b) in
  let count := Z.of_nat (length msgs) in
  fst (send_message tn m b) = Returned VNone /\
  get_last_offset tn b' = (Returned (count + 1), b') /\
  fst (read_message tn count b') = Returned (VStr m) /\
  fst (read_message tn (-1) b') = Returned (VStr m) /\
  (forall off, 0 <= off < count ->
     fst (read_message tn off b') = fst (read_message tn off b)) /\
  (forall tn' off, tn' <> tn ->
     fst (read_message tn' off b') = fst (read_message tn' off b)).
Proof.
  intros Hg b' count. unfold b'.
  rewrite (simple_send_message_run _ _ _ _ Hg). simpl fst. simpl snd.
  assert (Hg' : dict_get tn (dict_set tn (msgs ++ [m]) b) = Some (msgs ++ [m]))
    by apply dict_get_set_same.
  split; [reflexivity|]. split.
  { rewrite (simple_get_last_offset_run _ _ _ Hg'). rewrite length_app.
    simpl length. do 2 f_equal. unfold count. lia. }
  split.
  { rewrite (simple_read_message_found _ _ _ _ Hg'). unfold count.
    now rewrite list_index_middle. }
  split.
  { rewrite (simple_read_message_found _ _ _ _ Hg').
    now rewrite list_index_minus_one. }
  split.
  - intros off Hoff. rewrite (simple_read_message_found _ _ _ _ Hg').
    rewrite (simple_read_message_found _ _ _ _ Hg).
    now rewrite list_index_app_l.
  - intros tn' off Hne. rewrite !simple_read_message_run. simpl.
    now rewrite dict_get_set_other by congruence.
Qed.

Lemma simple_send_then_read_witness :
  let b' := snd (send_message "t" "y" broker_x) in
  let count := Z.of_nat (length ["x"%string]) in
  fst (send_message "t" "y" broker_x) = Returned VNone /\
  get_last_offset "t" b' = (Returned (count + 1), b') /\
  fst (read_message "t" count b') = Returned (VStr "y") /\
  fst (read_message "t" (-1) b') = Returned (VStr "y") /\
  (forall off, 0 <= off < count ->
     fst (read_message "t" off b') = fst (read_message "t" off broker_x)) /\
  (forall tn' off, tn' <> "t"%string ->
     fst (read_message tn' off b') = fst (read_message tn' off broker_x)).
Proof. apply (simple_send_then_read broker_x "t" ["x"%string] "y"). reflexivity. Defined.


(** A poll with the cursor on a stored message. *)
Lemma simple_poll_in_range (b : Broker) tn msgs (i : nat) m :
  dict_get tn b = Some msgs ->
  nth_error msgs i = Some m ->
  get_next_message (mkConsumer tn (Z.of_nat i), b)
  = (Returned (VStr m), (mkConsumer tn (Z.of_nat (S i)), b)).
Proof.
  intros Hg Hnth.
  assert (Hi : (i < length msgs)%nat) by (apply nth_error_Some; congruence).
  rewrite (simple_get_next_message_run (mkConsumer tn (Z.of_nat i)) b msgs Hg).
  simpl.
  replace (Z.of_nat i <=? Z.of_nat (length msgs)) with true
    by (symmetry; apply Z.leb_le; lia).
  rewrite (simple_read_message_found _ _ _ _ Hg). simpl.
  unfold list_index.
  replace (0 <=? Z.of_nat i) with true by (symmetry; apply Z.leb_le; lia).
  rewrite Nat2Z.id, Hnth. do 3 f_equal. lia.
Qed.

Lemma simple_skipn_nth {A : Type} (l : list A) (i : nat) (a : A) :
  nth_error l i = Some a -> skipn i l = a :: skipn (S i) l.
Proof.
  revert i. induction l as [|x l IH]; intros i Hnth.
  - destruct i; discriminate.
  - destruct i as [|i]; simpl in *; [now injection Hnth as ->|auto].
Qed.

(** X9: in the first design, a consumer whose cursor [i] is a valid index
    gets the messages from [i] on, in order, one per poll, and the broker
    does not change; its cursor is then the count. From the default cursor
    0 it reads the whole topic. *)
Theorem simple_polls_deliver_in_order (b : Broker) (tn : string)
    (msgs : list string) (i j : nat) :
  dict_get tn b = Some msgs ->
  (i + j = length msgs)%nat ->
  poll_n j (mkConsumer tn (Z.of_nat i), b)
  = (map (fun m => Returned (VStr m)) (skipn i msgs),
     (mkConsumer tn (Z.of_nat (length msgs)), b)).
Proof.
  intros Hg. revert i. induction j as [|j IH]; intros i Hij.
  - replace i with (length msgs) by lia. now rewrite skipn_all.
  - destruct (nth_error msgs i) as [m|] eqn:Hnth.
    2: { apply nth_error_None in Hnth. lia. }
    simpl. rewrite (simple_poll_in_range b tn msgs i m Hg Hnth).
    rewrite (IH (S i)) by lia.
    now rewrite (simple_skipn_nth msgs i m Hnth).
Qed.

Lemma simple_polls_deliver_witness :
  poll_n 3 (mkConsumer "t" (Z.of_nat 0), broker_xyz)
  = (map (fun m => Returned (VStr m)) (skipn 0 ["x"; "y"; "z"]%string),
     (mkConsumer "t" (Z.of_nat (length ["x"; "y"; "z"]%string)), broker_xyz)).
Proof.
  apply (simple_polls_deliver_in_order broker_xyz "t" ["x"; "y"; "z"]%string 0 3).
  - reflexivity.
  - reflexivity.
Defined.

(** X12: in the first design [create_topic] never fails; the topic it
    names is afterwards empty, whether it existed or not (its messages are
    dropped): its last offset is 0 and every offset reads [None]; the other
    topics are unchanged. *)
Theorem simple_create_topic_resets (b : Broker) (tn : string) :
  let b' := snd (create_topic tn b) in
  fst (create_topic tn b) = Returned VNone /\
  get_last_offset tn b' = (Returned 0, b') /\
  (forall off, fst (read_message tn off b') = Returned VNone) /\
  (forall tn', tn' <> tn -> dict_get tn' b' = dict_get tn' b).
Proof.
  simpl. split; [reflexivity|].
  assert (Hg : dict_get tn (dict_set tn (@nil string) b) = Some [])
    by apply dict_get_set_same.
  split; [exact (simple_get_last_offset_run _ _ _ Hg)|]. split.
  - intros off. rewrite (simple_read_message_found _ _ _ _ Hg). simpl.
    unfold list_index. simpl. destruct (0 <=? off).
    + now destruct (Z.to_nat off).
    + destruct (0 <=? off); [now destruct (Z.to_nat off)|].
      destruct (- 0 <=? off); [|reflexivity]. now destruct (Z.to_nat (0 + off)).
  - intros tn' Hne. apply dict_get_set_other. congruence.
Qed.

End SimpleMore.


(** * 02_partitions.py: further properties *)

Module PartitionsMore.
Import Partitions PartitionsFacts.

Lemma partitions_read_message_world tn p off (b : Broker) :
  snd (read_message tn p off b) = b.
Proof.
  unfold read_message, bind, gets, getitem, raise, try_except, ret. simpl.
  destruct (dict_get tn b) as [t|]; simpl; [|reflexivity].
  destruct (dict_get p (partitions t)) as [msgs|]; simpl; [|reflexivity].
  now destruct (list_index msgs off).
Qed.

Lemma partitions_get_next_message_world c (b : Broker) :
  snd (snd (get_next_message (c, b))) = b.
Proof.
  destruct (messages_of b (topic c) (partition c)) as [msgs|] eqn:Hm.
  - rewrite (partitions_get_next_message_run _ _ _ Hm).
    now destruct (_ <=? _).
  - unfold messages_of in Hm.
    unfold get_next_message, self, broker_call, get_last_offset, bind, gets,
      getitem, raise, ret. simpl.
    destruct (dict_get (topic c) b) as [t|]; simpl; [|reflexivity].
    now rewrite Hm.
Qed.

Lemma Forall_topic_ok_set (tn : string) (t : Topic) (b : Broker) :
  Forall (fun nt => topic_ok (snd nt)) b -> topic_ok t ->
  Forall (fun nt => topic_ok (snd nt)) (dict_set tn t b).
Proof.
  intros Hall Ht. induction b as [|[tn' t'] b IH]; simpl.
  - now repeat constructor.
  - inversion Hall; subst. destruct (String.eqb tn tn'); constructor; auto.
Qed.

Lemma dict_keys_set_same_keys {V : Type} (k : Z) (v v0 : V) (d : dict Z V) :
  dict_get k d = Some v0 -> dict_keys (dict_set k v d) = dict_keys d.
Proof.
  intros Hg. destruct (dict_get_split _ _ _ Hg) as (d1 & d2 & -> & Hn).
  rewrite dict_set_at by assumption. now rewrite !dict_keys_app.
Qed.

(** Every topic of a reachable broker has the partitions [0 .. n-1]. *)
Lemma reachable_topics_ok (b : Broker) :
  reachable b -> Forall (fun nt => topic_ok (snd nt)) b.
Proof.
  induction 1 as [|b c Hb IH]; [constructor|].
  destruct c as [tn n|tn m k|tn p off|c]; simpl.
  - apply Forall_topic_ok_set; [assumption|].
    unfold topic_ok, Topic_init. simpl. unfold dict_keys. rewrite map_map.
    simpl. apply map_id.
  - destruct (partitions_send_message_cases tn m k b)
      as [->|(t & msgs & Ht & Hp & ->)]; [assumption|].
    simpl. apply Forall_topic_ok_set; [assumption|].
    unfold topic_ok. simpl. rewrite (dict_keys_set_same_keys _ _ _ _ Hp).
    rewrite Forall_forall in IH. apply dict_get_In in Ht. exact (IH _ Ht).
  - now rewrite partitions_read_message_world.
  - now rewrite partitions_get_next_message_world.
Qed.

Lemma reachable_topic_ok (b : Broker) tn t :
  reachable b -> dict_get tn b = Some t -> topic_ok t.
Proof.
  intros Hb Ht. pose proof (reachable_topics_ok b Hb) as Hall.
  rewrite Forall_forall in Hall. apply dict_get_In in Ht. exact (Hall _ Ht).
Qed.

Lemma partitions_partition_exists (b : Broker) tn t p :
  reachable b -> dict_get tn b = Some t ->
  (0 <= p < num_partitions t <-> dict_get p (partitions t) <> None).
Proof.
  intros Hb Ht. pose proof (reachable_topic_ok b tn t Hb Ht) as Hk.
  unfold topic_ok in Hk. rewrite <- In_range, <- Hk. split.
  - intros Hin Hnone. now apply dict_get_None in Hnone.
  - intros Hsome. destruct (in_dec Z.eq_dec p (dict_keys (partitions t)));
      [assumption|]. exfalso. apply Hsome. now apply dict_get_None.
Qed.

Lemma reachable_broker_xyz : reachable broker_xyz.
Proof. unfold broker_xyz. repeat apply reach_call. exact reach_new. Qed.

(** X10: in the second design, on a reachable broker, [send_message] to
    a topic with at least one partition returns [None] and appends the
    message to partition [sha1(key or message) mod n], which exists: the
    message is read back there at the offset that was the count, every
    non-negative offset that was readable reads the same, and the other
    partitions and topics keep their messages. *)
Theorem partitions_send_message_appends (b : Broker) (tn m : string)
    (k : option string) (t : Topic) :
  reachable b ->
  dict_get tn b = Some t ->
  0 < num_partitions t ->
  let p := route (num_partitions t) k m in
  let b' := snd (send_message tn m k b) in
  exists msgs,
    0 <= p < num_partitions t /\
    messages_of b tn p = Some msgs /\
    fst (send_message tn m k b) = Returned VNone /\
    messages_of b' tn p = Some (msgs ++ [m]) /\
    fst (read_message tn p (Z.of_nat (length msgs)) b') = Returned (VStr m) /\
    (forall off, 0 <= off < Z.of_nat (length msgs) ->
       fst (read_message tn p off b') = fst (read_message tn p off b)) /\
    (forall tn' p', tn' <> tn \/ p' <> p ->
       messages_of b' tn' p' = messages_of b tn' p').
Proof.
  intros Hb Ht Hpos p b'.
  assert (Hrange : 0 <= p < num_partitions t)
    by (apply Z.mod_pos_bound; lia).
  destruct (dict_get p (partitions t)) as [msgs|] eqn:Hp.
  2: { exfalso. apply (partitions_partition_exists b tn t p Hb Ht) in Hrange.
       contradiction. }
  exists msgs.
  assert (Hrun : send_message tn m k b
            = (Returned VNone,
               dict_set tn
                 (mkTopic (num_partitions t)
                          (dict_set p (msgs ++ [m]) (partitions t))) b)).
  { unfold send_message, bind, gets, getitem, raise, ret, sha1_mod, modify.
    simpl. rewrite Ht. simpl.
    destruct (Z.eqb_spec (num_partitions t) 0); [lia|]. simpl.
    fold (route (num_partitions t) k m). fold p. now rewrite Hp. }
  assert (Hm : messages_of b tn p = Some msgs)
    by (unfold messages_of; now rewrite Ht).
  assert (Hm' : messages_of b' tn p = Some (msgs ++ [m])).
  { unfold b', messages_of. rewrite Hrun. simpl.
    rewrite dict_get_set_same. simpl. apply dict_get_set_same. }
  split; [exact Hrange|]. split; [exact Hm|].
  split; [now rewrite Hrun|]. split; [exact Hm'|]. split; [|split].
  - rewrite (partitions_read_message_run _ _ _ _ _ Hm').
    now rewrite list_index_middle.
  - intros off Hoff.
    rewrite (partitions_read_message_run _ _ _ _ _ Hm').
    rewrite (partitions_read_message_run _ _ _ _ _ Hm). simpl.
    unfold list_index.
    replace (0 <=? off) with true by (symmetry; apply Z.leb_le; lia).
    rewrite nth_error_app1 by lia. reflexivity.
  - intros tn' p' Hne. unfold b', messages_of. rewrite Hrun. simpl.
    destruct (string_dec tn' tn) as [->|Hntn].
    + rewrite dict_get_set_same, Ht. simpl.
      apply dict_get_set_other. destruct Hne; congruence.
    + now rewrite dict_get_set_other by congruence.
Qed.

Lemma partitions_send_message_appends_witness :
  let p := route 1 (Some "Jim"%string) "w" in
  let b' := snd (send_message "t" "w" (Some "Jim"%string) broker_xyz) in
  exists msgs,
    0 <= p < 1 /\
    messages_of broker_xyz "t" p = Some msgs /\
    fst (send_message "t" "w" (Some "Jim"%string) broker_xyz) = Returned VNone /\
    messages_of b' "t" p = Some (msgs ++ ["w"%string]) /\
    fst (read_message "t" p (Z.of_nat (length msgs)) b') = Returned (VStr "w") /\
    (forall off, 0 <= off < Z.of_nat (length msgs) ->
       fst (read_message "t" p off b') = fst (read_message "t" p off broker_xyz)) /\
    (forall tn' p', tn' <> "t"%string \/ p' <> p ->
       messages_of b' tn' p' = messages_of broker_xyz tn' p').
Proof.
  apply (partitions_send_message_appends broker_xyz "t" "w" (Some "Jim"%string)
           (mkTopic 1 [(0, ["x"; "y"; "z"]%string)])).
  - exact reachable_broker_xyz.
  - vm_compute. reflexivity.
  - simpl. lia.
Defined.

Lemma reachable_broker_negative : reachable broker_negative.
Proof. unfold broker_negative. apply reach_call. exact reach_new. Qed.

(** X18: in the second design a topic created with a partition count that
    is zero or negative can never receive a message: on a reachable broker
    every [send_message] to it raises and leaves the broker as it was. *)
Theorem partitions_send_message_without_partitions (b : Broker) (tn m : string)
    (k : option string) (t : Topic) :
  reachable b ->
  dict_get tn b = Some t ->
  num_partitions t <= 0 ->
  (exists e, fst (send_message tn m k b) = Raised e) /\
  snd (send_message tn m k b) = b.
Proof.
  intros Hb Ht Hn.
  unfold send_message, bind, gets, getitem, raise, ret, sha1_mod. simpl.
  rewrite Ht. simpl.
  destruct (Z.eqb_spec (num_partitions t) 0); simpl; [eauto|].
  fold (route (num_partitions t) k m).
  destruct (dict_get (route (num_partitions t) k m) (partitions t)) eqn:Hp;
    simpl; [|eauto].
  exfalso.
  assert (Hsome : dict_get (route (num_partitions t) k m) (partitions t) <> None)
    by congruence.
  apply (partitions_partition_exists b tn t _ Hb Ht) in Hsome. lia.
Qed.

Lemma partitions_send_message_without_partitions_witness :
  (exists e, fst (send_message "t" "a" None broker_negative) = Raised e) /\
  snd (send_message "t" "a" None broker_negative) = broker_negative.
Proof.
  apply (partitions_send_message_without_partitions broker_negative "t" "a" None
           (Topic_init (-2))).
  - exact reachable_broker_negative.
  - reflexivity.
  - simpl. lia.
Defined.

(** A poll with the cursor on a stored message. *)
Lemma partitions_poll_in_range (b : Broker) tn p msgs (i : nat) m :
  messages_of b tn p = Some msgs ->
  nth_error msgs i = Some m ->
  get_next_message (mkConsumer tn p (Z.of_nat i), b)
  = (Returned (VStr m), (mkConsumer tn p (Z.of_nat (S i)), b)).
Proof.
  intros Hg Hnth.
  assert (Hi : (i < length msgs)%nat) by (apply nth_error_Some; congruence).
  rewrite (partitions_get_next_message_run (mkConsumer tn p (Z.of_nat i)) b msgs Hg).
  simpl.
  replace (Z.of_nat i <=? Z.of_nat (length msgs)) with true
    by (symmetry; apply Z.leb_le; lia).
  rewrite (partitions_read_message_run _ _ _ _ _ Hg). simpl.
  unfold list_index.
  replace (0 <=? Z.of_nat i) with true by (symmetry; apply Z.leb_le; lia).
  rewrite Nat2Z.id, Hnth. do 3 f_equal. lia.
Qed.

Lemma partitions_skipn_nth {A : Type} (l : list A) (i : nat) (a : A) :
  nth_error l i = Some a -> skipn i l = a :: skipn (S i) l.
Proof.
  revert i. induction l as [|x l IH]; intros i Hnth.
  - destruct i; discriminate.
  - destruct i as [|i]; simpl in *; [now injection Hnth as ->|auto].
Qed.

(** X11: in the second design, a consumer of a partition whose cursor [i]
    is a valid index gets the messages of that partition from [i] on, in
    the order they were sent, one per poll; the broker does not change and
    the cursor ends at the count. *)
Theorem partitions_polls_deliver_in_order (b : Broker) (tn : string) (p : Z)
    (msgs : list string) (i j : nat) :
  messages_of b tn p = Some msgs ->
  (i + j = length msgs)%nat ->
  poll_n j (mkConsumer tn p (Z.of_nat i), b)
  = (map (fun m => Returned (VStr m)) (skipn i msgs),
     (mkConsumer tn p (Z.of_nat (length msgs)), b)).
Proof.
  intros Hg. revert i. induction j as [|j IH]; intros i Hij.
  - replace i with (length msgs) by lia. now rewrite skipn_all.
  - destruct (nth_error msgs i) as [m|] eqn:Hnth.
    2: { apply nth_error_None in Hnth. lia. }
    simpl. rewrite (partitions_poll_in_range b tn p msgs i m Hg Hnth).
    rewrite (IH (S i)) by lia.
    now rewrite (partitions_skipn_nth msgs i m Hnth).
Qed.

Lemma partitions_polls_deliver_witness :
  poll_n 3 (mkConsumer "t" 0 (Z.of_nat 0), broker_xyz)
  = (map (fun m => Returned (VStr m)) (skipn 0 ["x"; "y"; "z"]%string),
     (mkConsumer "t" 0 (Z.of_nat (length ["x"; "y"; "z"]%string)), broker_xyz)).
Proof.
  apply (partitions_polls_deliver_in_order broker_xyz "t" 0
           ["x"; "y"; "z"]%string 0 3).
  - vm_compute. reflexivity.
  - reflexivity.
Defined.

(** X13: in the second design [create_topic] never fails; the topic it
    names has afterwards exactly the partitions [0 .. n-1], all empty
    (whatever it held before is dropped): [get_last_offset] is 0 inside
    that range and raises KeyError outside; the other topics are
    unchanged. *)
Theorem partitions_create_topic_resets (b : Broker) (tn : string) (n : Z) :
  let b' := snd (create_topic tn n b) in
  fst (create_topic tn n b) = Returned VNone /\
  (forall p, 0 <= p < n -> get_last_offset tn p b' = (Returned 0, b')) /\
  (forall p, ~ (0 <= p < n) -> get_last_offset tn p b' = (Raised KeyError, b')) /\
  (forall tn', tn' <> tn -> dict_get tn' b' = dict_get tn' b).
Proof.
  simpl. split; [reflexivity|].
  assert (Hg : dict_get tn (dict_set tn (Topic_init n) b) = Some (Topic_init n))
    by apply dict_get_set_same.
  assert (Hparts : forall p,
            dict_get p (partitions (Topic_init n))
            = if in_dec Z.eq_dec p (range n) then Some [] else None).
  { intros p. simpl. destruct (in_dec Z.eq_dec p (range n)) as [Hin|Hn].
    - destruct (dict_get p (map (fun i : Z => (i, @nil string)) (range n)))
        as [msgs|] eqn:E.
      + apply dict_get_In in E. apply in_map_iff in E.
        now destruct E as (i & [= _ <-] & _).
      + apply dict_get_None in E. exfalso. apply E.
        unfold dict_keys. rewrite map_map. simpl. now rewrite map_id.
    - apply dict_get_None. unfold dict_keys. rewrite map_map. simpl.
      now rewrite map_id. }
  split; [|split].
  - intros p Hp. apply partitions_get_last_offset_run with (msgs := []).
    unfold messages_of. rewrite Hg, Hparts.
    destruct (in_dec Z.eq_dec p (range n)) as [|Hn]; [reflexivity|].
    exfalso. apply Hn. now apply In_range.
  - intros p Hp. unfold get_last_offset, bind, gets, getitem, raise, ret.
    simpl. rewrite Hg. simpl. change (map (fun i : Z => (i, []))
      (range n)) with (partitions (Topic_init n)). rewrite Hparts.
    destruct (in_dec Z.eq_dec p (range n)) as [Hin|]; [|reflexivity].
    apply In_range in Hin. contradiction.
  - intros tn' Hne. apply dict_get_set_other. congruence.
Qed.


End PartitionsMore.
